(** * OFAC-Search: the fuzzy matching and scoring engine

    A shallow embedding of [utils/fuzzy-search.js] (Jaro and Jaro-Winkler
    similarity, name normalisation, the name / date-of-birth / address /
    identifier comparators, the match scorer and the threshold search)
    together with the properties stated for it.

    Conventions of the embedding.
    - A JavaScript string is a [string] whose characters are read as the
      code units U+0000..U+00FF; [toLowerCase], [\s], [\D] and [[a-z0-9]]
      are written out for that range.
    - A field that may be [undefined] or [null] is an [option string];
      [truthy] is the JavaScript truth test on such a value.
    - A JavaScript number is an exact rational ([Q]): the scores are
      proved as the formulas of the source define them, without the
      rounding of binary floating point.  Integral results ([Math.round],
      counters, lengths) are kept in [Z] or [nat], and [Math.round x] is
      [floor (x + 1/2)].
    - Arrays of flags are [list bool], read with [!!] and written with
      [<[i:=b]>]; every write of the source is in range.
    - [new Date(s)] is a service of the host: it is a parameter,
      [newDate], of the functions that reach it. *)

From Stdlib Require Import ZArith QArith Qround Qminmax Lia Lqa.
From Stdlib Require Import Strings.String Strings.Ascii.
From Stdlib Require Import Sorting.Sorted Sorting.Permutation.
From stdpp Require Import base list.

Local Open Scope Z_scope.

(** ** JavaScript primitives *)

Definition chars (s : string) : list ascii := list_ascii_of_string s.

Definition code (c : ascii) : N := N_of_ascii c.

Definition between (lo hi n : N) : bool := ((lo <=? n) && (n <=? hi))%N.

(** [String.prototype.toLowerCase] on one code unit below U+0100: A-Z and
    the Latin-1 capitals U+00C0..U+00DE (U+00D7 is the multiplication sign). *)
Definition lower_char (c : ascii) : ascii :=
  let n := code c in
  if between 65 90 n || (between 192 222 n && negb (n =? 215)%N)
  then ascii_of_N (n + 32)
  else c.

Definition toLowerCase (l : list ascii) : list ascii := map lower_char l.

(** [\d] *)
Definition is_digit (c : ascii) : bool := between 48 57 (code c).

(** [[a-z]] *)
Definition is_lower_az (c : ascii) : bool := between 97 122 (code c).

(** [\s] below U+0100: TAB, LF, VT, FF, CR, SPACE and NBSP. *)
Definition is_space (c : ascii) : bool :=
  let n := code c in between 9 13 n || (n =? 32)%N || (n =? 160)%N.

Definition space : ascii := " "%char.

(** [s.replace(/\D/g, "")] *)
Definition digitsOnly (s : string) : string :=
  string_of_list_ascii (List.filter is_digit (chars s)).

(** [Math.round] *)
Definition Math_round (x : Q) : Z := Qfloor (x + (1 # 2)).

(** The truth test on a string-valued field: [undefined], [null] and the
    empty string are falsy. *)
Definition truthy (v : option string) : bool :=
  match v with
  | Some s => negb (String.eqb s EmptyString)
  | None => false
  end.

Definition nonempty (s : string) : bool := negb (String.eqb s EmptyString).

(** [str1[i] === str2[j]] on indexed reads: a read out of range is
    [undefined], equal only to another [undefined]. *)
Definition same_char (x y : option ascii) : bool :=
  match x, y with
  | Some c, Some d => Ascii.eqb c d
  | None, None => true
  | _, _ => false
  end.

(** A [for (let i = 0; i < n; i++) body] loop over a state. *)
Fixpoint for_loop {St : Type} (n : nat) (body : nat -> St -> St) (init : St) : St :=
  match n with
  | O => init
  | Datatypes.S k => body k (for_loop k body init)
  end.

(** ** Jaro similarity *)

Record match_state : Type := MatchState {
  s1Matches : list bool;
  s2Matches : list bool;
  matches : nat
}.

(** [Math.floor(Math.max(len1, len2) / 2) - 1]; it is [-1] when the longer
    string has one character. *)
Definition matchDistance (len1 len2 : nat) : Z :=
  Z.max (Z.of_nat len1) (Z.of_nat len2) / 2 - 1.

(** The inner loop [for (j = start; j < end; j++)]: [n] positions are left,
    [j] is the current one.  A position is skipped when it is already
    taken or holds another character. *)
Fixpoint scan_window (c : ascii) (str2 : list ascii) (taken : list bool)
    (j n : nat) : option nat :=
  match n with
  | O => None
  | Datatypes.S n' =>
      match taken !! j, str2 !! j with
      | Some false, Some d =>
          if Ascii.eqb c d then Some j else scan_window c str2 taken (S j) n'
      | _, _ => scan_window c str2 taken (S j) n'
      end
  end.

Definition window_start (w : Z) (i : nat) : Z := Z.max 0 (Z.of_nat i - w).

Definition window_end (w : Z) (len2 i : nat) : Z :=
  Z.min (Z.of_nat i + w + 1) (Z.of_nat len2).

(** One iteration of the outer matching loop. *)
Definition match_step (str1 str2 : list ascii) (w : Z) (i : nat)
    (st : match_state) : match_state :=
  match str1 !! i with
  | None => st
  | Some c =>
      let start := window_start w i in
      let stop := window_end w (length str2) i in
      match scan_window c str2 (s2Matches st)
              (Z.to_nat start) (Z.to_nat (stop - start)) with
      | Some j =>
          {| s1Matches := <[i:=true]> (s1Matches st);
             s2Matches := <[j:=true]> (s2Matches st);
             matches := S (matches st) |}
      | None => st
      end
  end.

Definition match_init (len1 len2 : nat) : match_state :=
  {| s1Matches := replicate len1 false;
     s2Matches := replicate len2 false;
     matches := 0 |}.

Definition find_matches (str1 str2 : list ascii) : match_state :=
  let len1 := length str1 in
  let len2 := length str2 in
  for_loop len1 (match_step str1 str2 (matchDistance len1 len2))
    (match_init len1 len2).

(** [while (!s2Matches[k]) k++], run on the flags from position [k] on.
    Reading past the end gives [undefined], which is falsy, so the source
    loop would never stop there: that is [None]. *)
Fixpoint first_set (flags : list bool) (k : nat) : option nat :=
  match flags with
  | [] => None
  | true :: _ => Some k
  | false :: rest => first_set rest (S k)
  end.

(** One iteration of the transposition loop on the pair [(k, transpositions)]. *)
Definition transposition_step (str1 str2 : list ascii) (st : match_state)
    (i : nat) (acc : option (nat * nat)) : option (nat * nat) :=
  match acc with
  | None => None
  | Some (k, t) =>
      match s1Matches st !! i with
      | Some true =>
          match first_set (drop k (s2Matches st)) k with
          | None => None
          | Some k' =>
              Some (S k',
                    if same_char (str1 !! i) (str2 !! k') then t else S t)
          end
      | _ => Some (k, t)
      end
  end.

Definition count_transpositions (str1 str2 : list ascii) (st : match_state)
    : option nat :=
  snd <$> for_loop (length str1) (transposition_step str1 str2 st) (Some (0%nat, 0%nat)).

Definition QofN (n : nat) : Q := inject_Z (Z.of_nat n).

(** The closing formula of [jaroSimilarity]. *)
Definition jaro_formula (m t len1 len2 : nat) : Q :=
  (QofN m / QofN len1 + QofN m / QofN len2
   + (QofN m - QofN t / 2) / QofN m) / 3.

(** [jaroSimilarity(s1, s2)].  The transposition scan never leaves
    [s2Matches] (lemma [count_transpositions_total] below), so its [None]
    branch is never taken. *)
Definition jaroSimilarity (s1 s2 : string) : Q :=
  if String.eqb s1 s2 then 1
  else if negb (nonempty s1) || negb (nonempty s2) then 0
  else
    let str1 := toLowerCase (chars s1) in
    let str2 := toLowerCase (chars s2) in
    let st := find_matches str1 str2 in
    if Nat.eqb (matches st) 0 then 0
    else
      match count_transpositions str1 str2 st with
      | Some t => jaro_formula (matches st) t (length str1) (length str2)
      | None => 0
      end.

(** ** Jaro-Winkler similarity *)

(** The prefix loop [for (i = 0; i < maxPrefix; i++)] with its [break]:
    [n] iterations are left, [i] is the current index. *)
Fixpoint prefix_loop (str1 str2 : list ascii) (i n : nat) : nat :=
  match n with
  | O => O
  | Datatypes.S n' =>
      if same_char (str1 !! i) (str2 !! i)
      then S (prefix_loop str1 str2 (S i) n')
      else O
  end.

Definition common_prefix (str1 str2 : list ascii) : nat :=
  prefix_loop str1 str2 0 (Nat.min 4 (Nat.min (length str1) (length str2))).

Definition default_p : Q := 1 # 10.

(** [jaroWinkler(s1, s2, p)] *)
Definition jaroWinkler (s1 s2 : string) (p : Q) : Q :=
  if String.eqb s1 s2 then 1
  else if negb (nonempty s1) || negb (nonempty s2) then 0
  else
    let jaroScore := jaroSimilarity s1 s2 in
    let prefix := common_prefix (toLowerCase (chars s1)) (toLowerCase (chars s2)) in
    jaroScore + QofN prefix * p * (1 - jaroScore).

Local Open Scope Q_scope.

(** ** Name normalisation *)

(** [.replace(/[^a-z0-9\s]/g, " ")] *)
Definition replace_other (l : list ascii) : list ascii :=
  map (fun c => if is_lower_az c || is_digit c || is_space c then c else space) l.

(** [.replace(/\s+/g, " ")]: [in_run] tells that the previous character
    was white space, whose run has already produced its one space. *)
Fixpoint collapse_spaces (in_run : bool) (l : list ascii) : list ascii :=
  match l with
  | [] => []
  | c :: rest =>
      if is_space c
      then (if in_run then collapse_spaces true rest
            else space :: collapse_spaces true rest)
      else c :: collapse_spaces false rest
  end.

Fixpoint drop_spaces (l : list ascii) : list ascii :=
  match l with
  | [] => []
  | c :: rest => if is_space c then drop_spaces rest else l
  end.

(** [.trim()] *)
Definition trim (l : list ascii) : list ascii :=
  rev (drop_spaces (rev (drop_spaces l))).

(** [normalizeName(name)] *)
Definition normalizeName (name : option string) : string :=
  if negb (truthy name) then EmptyString
  else
    match name with
    | None => EmptyString
    | Some s =>
        string_of_list_ascii
          (trim (collapse_spaces false (replace_other (toLowerCase (chars s)))))
    end.

(** ** Name similarity *)

Record NameParts : Type := {
  firstName : option string;
  middleName : option string;
  lastName : option string
}.

(** [if (cond) { weightedScore += score * weight; totalWeight += weight; }]
    on the pair [(weightedScore, totalWeight)]. *)
Definition add_part (cond : bool) (score weight : Q) (acc : Q * Q) : Q * Q :=
  if cond then (fst acc + score * weight, snd acc + weight) else acc.

(** [calculateNameSimilarity(searchName, sdnName)]; [middleScore] is
    [None] where the source sets it to [null]. *)
Definition calculateNameSimilarity (searchName sdnName : NameParts) : Z :=
  let search_first := normalizeName (firstName searchName) in
  let search_middle := normalizeName (middleName searchName) in
  let search_last := normalizeName (lastName searchName) in
  let sdn_first := normalizeName (firstName sdnName) in
  let sdn_middle := normalizeName (middleName sdnName) in
  let sdn_last := normalizeName (lastName sdnName) in
  let lastScore : Q :=
    if nonempty search_last && nonempty sdn_last
    then jaroWinkler search_last sdn_last default_p else 0 in
  let firstScore : Q :=
    if nonempty search_first && nonempty sdn_first
    then jaroWinkler search_first sdn_first default_p else 0 in
  let middleScore : option Q :=
    if nonempty search_middle && nonempty sdn_middle
    then Some (jaroWinkler search_middle sdn_middle default_p)
    else if negb (nonempty search_middle) || negb (nonempty sdn_middle)
         then None
         else Some 0 in
  let acc : Q * Q := (0, 0) in
  let acc := add_part (nonempty search_last) lastScore (1 # 2) acc in
  let acc := add_part (nonempty search_first) firstScore (35 # 100) acc in
  let acc :=
    match middleScore with
    | Some ms => add_part true ms (15 # 100) acc
    | None => acc
    end in
  let weightedScore := fst acc in
  let totalWeight := snd acc in
  let finalScore : Q :=
    if negb (Qle_bool totalWeight 0)
    then weightedScore / totalWeight * 100 else 0 in
  Math_round finalScore.

(** ** Address similarity *)

Record Address : Type := {
  address : option string;
  city : option string;
  state : option string;
  country : option string
}.

(** One of the four blocks of [calculateAddressSimilarity], on the pair
    [(totalScore, fields)]. *)
Definition address_part (weight : Q) (x y : option string) (acc : Q * nat)
    : Q * nat :=
  if truthy x && truthy y
  then (fst acc + jaroWinkler (normalizeName x) (normalizeName y) default_p * weight,
        S (snd acc))
  else acc.

(** [calculateAddressSimilarity(searchAddr, sdnAddr)]; its callers always
    pass two object literals, so the guard on a missing argument never
    fires and the arguments are records. *)
Definition calculateAddressSimilarity (searchAddr sdnAddr : Address) : Z :=
  let acc : Q * nat := (0, 0%nat) in
  let acc := address_part 40 (country searchAddr) (country sdnAddr) acc in
  let acc := address_part 20 (state searchAddr) (state sdnAddr) acc in
  let acc := address_part 25 (city searchAddr) (city sdnAddr) acc in
  let acc := address_part 15 (address searchAddr) (address sdnAddr) acc in
  if Nat.ltb 0 (snd acc) then Math_round (fst acc) else 0%Z.

(** ** Queries, watch-list entries and results *)

Record SearchParams : Type := {
  sp_firstName : option string;
  sp_middleName : option string;
  sp_lastName : option string;
  sp_dob : option string;
  sp_address : option string;
  sp_city : option string;
  sp_state : option string;
  sp_country : option string;
  sp_idNumber : option string
}.

Record Identifier : Type := {
  id_type : string;
  id_number : option string
}.

Record SdnEntry : Type := {
  uid : string;
  e_firstName : option string;
  e_middleName : option string;
  e_lastName : option string;
  e_dob : option string;
  e_address : option string;
  e_city : option string;
  e_state : option string;
  e_country : option string;
  ids : option (list Identifier)
}.

Record MatchResult : Type := {
  score : Z;
  nameScore : Z;
  dobMatch : bool;
  addressScore : Z;
  idMatch : bool;
  details : list string
}.

(** What the three getters [getFullYear], [getMonth] and [getDate] return
    for a valid [Date]. *)
Record LocalDate : Type := {
  getFullYear : Z;
  getMonth : Z;
  getDate : Z
}.

(** The [for (const id of sdnEntry.ids)] loop with its [break]: the first
    identifier whose digits equal those of the query. *)
Fixpoint find_id (normalizedSearchId : string) (l : list Identifier)
    : option Identifier :=
  match l with
  | [] => None
  | id :: rest =>
      let normalizedSdnId :=
        match id_number id with
        | Some n => digitsOnly n
        | None => EmptyString
        end in
      if String.eqb normalizedSearchId normalizedSdnId then Some id
      else find_id normalizedSearchId rest
  end.

Definition search_name (sp : SearchParams) : NameParts :=
  {| firstName := sp_firstName sp; middleName := sp_middleName sp;
     lastName := sp_lastName sp |}.

Definition entry_name (e : SdnEntry) : NameParts :=
  {| firstName := e_firstName e; middleName := e_middleName e;
     lastName := e_lastName e |}.

Definition search_address (sp : SearchParams) : Address :=
  {| address := sp_address sp; city := sp_city sp; state := sp_state sp;
     country := sp_country sp |}.

Definition entry_address (e : SdnEntry) : Address :=
  {| address := e_address e; city := e_city e; state := e_state e;
     country := e_country e |}.

Record SearchHit : Type := {
  entry : SdnEntry;
  result : MatchResult
}.

(** ** Sorting *)

(** [Array.prototype.sort(compare)] is stable (ECMAScript 2019), and the
    outcome of a stable sort is fixed by the comparator; it is modelled by
    insertion from the right, which puts an element after the ones that
    compare strictly before it and before all others. *)
Section Sort.
Context {A : Type} (compare : A -> A -> Z).

Fixpoint insert_sorted (x : A) (l : list A) : list A :=
  match l with
  | [] => [x]
  | y :: rest =>
      if (compare y x <? 0)%Z then y :: insert_sorted x rest else x :: l
  end.

Fixpoint array_sort (l : list A) : list A :=
  match l with
  | [] => []
  | x :: rest => insert_sorted x (array_sort rest)
  end.
End Sort.

(** ** The engine *)

Section Engine.

(** [new Date(s)] followed by the three local-time getters; [None] when
    [getTime()] is [NaN]. *)
Variable newDate : string -> option LocalDate.

Definition same_day (d1 d2 : LocalDate) : bool :=
  (getFullYear d1 =? getFullYear d2)%Z
  && (getMonth d1 =? getMonth d2)%Z
  && (getDate d1 =? getDate d2)%Z.

(** [matchDOB(searchDOB, sdnDOB)] *)
Definition matchDOB (searchDOB sdnDOB : option string) : bool :=
  if negb (truthy searchDOB) || negb (truthy sdnDOB) then false
  else
    match searchDOB, sdnDOB with
    | Some a, Some b =>
        if String.eqb (digitsOnly a) (digitsOnly b) then true
        else
          match newDate a, newDate b with
          | Some search, Some sdn => same_day search sdn
          | _, _ => false
          end
    | _, _ => false
    end.

(** [calculateMatchScore(searchParams, sdnEntry)] *)
Definition calculateMatchScore (searchParams : SearchParams)
    (sdnEntry : SdnEntry) : MatchResult :=
  let r_nameScore :=
    calculateNameSimilarity (search_name searchParams) (entry_name sdnEntry) in
  let r_dobMatch :=
    if truthy (sp_dob searchParams)
    then matchDOB (sp_dob searchParams) (e_dob sdnEntry) else false in
  let details1 :=
    if r_dobMatch then ["Date of birth matches"%string] else [] in
  let r_addressScore :=
    if truthy (sp_country searchParams) || truthy (sp_city searchParams)
       || truthy (sp_state searchParams)
    then calculateAddressSimilarity (search_address searchParams)
           (entry_address sdnEntry)
    else 0%Z in
  let found_id : option Identifier :=
    match sp_idNumber searchParams, ids sdnEntry with
    | Some idNumber, Some l =>
        if nonempty idNumber then find_id (digitsOnly idNumber) l else None
    | _, _ => None
    end in
  let r_idMatch := match found_id with Some _ => true | None => false end in
  let details2 :=
    match found_id with
    | Some id =>
        details1 ++ [("ID number matches (" ++ id_type id ++ ")")%string]
    | None => details1
    end in
  let overallScore : Q := inject_Z r_nameScore * (6 # 10) in
  let overallScore := if r_dobMatch then overallScore + 20 else overallScore in
  let overallScore := overallScore + inject_Z r_addressScore * (15 # 100) in
  let overallScore := if r_idMatch then overallScore + 5 else overallScore in
  {| score := Z.min 100 (Math_round overallScore);
     nameScore := r_nameScore;
     dobMatch := r_dobMatch;
     addressScore := r_addressScore;
     idMatch := r_idMatch;
     details := details2 |}.

(** The comparator [(a, b) => b.score - a.score]. *)
Definition by_score_desc (a b : SearchHit) : Z :=
  (score (result b) - score (result a))%Z.

(** The loop of [searchSDN] that collects the hits. *)
Fixpoint collect (searchParams : SearchParams) (sdnEntries : list SdnEntry)
    (threshold : Q) : list SearchHit :=
  match sdnEntries with
  | [] => []
  | e :: rest =>
      let matchResult := calculateMatchScore searchParams e in
      if Qle_bool threshold (inject_Z (score matchResult))
      then {| entry := e; result := matchResult |}
           :: collect searchParams rest threshold
      else collect searchParams rest threshold
  end.

(** [searchSDN(searchParams, sdnEntries, threshold)] *)
Definition searchSDN (searchParams : SearchParams)
    (sdnEntries : list SdnEntry) (threshold : Q) : list SearchHit :=
  array_sort by_score_desc (collect searchParams sdnEntries threshold).

End Engine.

(** The default [threshold = 85]. *)
Definition default_threshold : Q := 85.

(** ** A reference host

    ECMA-262 fixes how [new Date] reads the date-only form [YYYY-MM-DD]:
    as midnight UTC.  Other forms are left to the engine; V8 reads
    [MM/DD/YYYY] as midnight local time.  [referenceDate tz] is a host
    whose local time is UTC plus [tz] minutes (less than a day either
    way), which accepts these two forms for a valid calendar day and
    nothing else.  It serves to run the engine on concrete inputs. *)

Definition digit_value (c : ascii) : Z := (Z.of_N (code c) - 48)%Z.

Definition decimal (l : list ascii) : option Z :=
  if forallb is_digit l
  then Some (fold_left (fun acc c => (acc * 10 + digit_value c)%Z) l 0%Z)
  else None.

Definition is_leap (y : Z) : bool :=
  ((y mod 4 =? 0) && (negb (y mod 100 =? 0) || (y mod 400 =? 0)))%Z.

Definition days_in_month (y m : Z) : Z :=
  (if m =? 2 then (if is_leap y then 29 else 28)
   else if (m =? 4) || (m =? 6) || (m =? 9) || (m =? 11) then 30
   else 31)%Z.

Definition valid_day (y m d : Z) : bool :=
  ((1 <=? m) && (m <=? 12) && (1 <=? d) && (d <=? days_in_month y m))%Z.

(** Month is zero-based in [getMonth]. *)
Definition local_date (y m d : Z) : LocalDate :=
  {| getFullYear := y; getMonth := (m - 1)%Z; getDate := d |}.

Definition day_before (y m d : Z) : LocalDate :=
  (if 1 <? d then local_date y m (d - 1)
   else if 1 <? m then local_date y (m - 1) (days_in_month y (m - 1))
   else local_date (y - 1) 12 31)%Z.

Definition referenceDate (tz : Z) (s : string) : option LocalDate :=
  match chars s with
  | [c0; c1; c2; c3; c4; c5; c6; c7; c8; c9] =>
      if Ascii.eqb c4 "-" && Ascii.eqb c7 "-" then
        match decimal [c0; c1; c2; c3], decimal [c5; c6], decimal [c8; c9] with
        | Some y, Some m, Some d =>
            if valid_day y m d
            then Some (if (tz <? 0)%Z then day_before y m d else local_date y m d)
            else None
        | _, _, _ => None
        end
      else if Ascii.eqb c2 "/" && Ascii.eqb c5 "/" then
        match decimal [c6; c7; c8; c9], decimal [c0; c1], decimal [c3; c4] with
        | Some y, Some m, Some d =>
            if valid_day y m d then Some (local_date y m d) else None
        | _, _, _ => None
        end
      else None
  | _ => None
  end.

(** ** The scores as the specification words them *)

(** The overall score of the specification:
    [round(min(100, nameScore * 0.6 + (20 if dobMatches) + addressScore * 0.15
    + (5 if identifierMatches)))]. *)
Definition spec_overall_score (name_score : Z) (dob_matches : bool)
    (address_score : Z) (identifier_matches : bool) : Z :=
  Math_round
    (Qmin 100
       (inject_Z name_score * (6 # 10)
        + (if dob_matches then 20 else 0)
        + inject_Z address_score * (15 # 100)
        + (if identifier_matches then 5 else 0))).

(** The similarity of one name part whose query side is not empty: an
    empty candidate side scores 0. *)
Definition spec_part_similarity (query_part candidate_part : string) : Q :=
  if nonempty candidate_part
  then jaroWinkler query_part candidate_part default_p else 0.

(** The parts that contribute to a name score, each with its similarity
    and its weight: last (0.50) and first (0.35) when the query side is
    not empty, middle (0.15) when both sides are not empty. *)
Definition spec_name_contributions (q_first q_middle q_last
    c_first c_middle c_last : string) : list (Q * Q) :=
  (if nonempty q_last
   then [(spec_part_similarity q_last c_last, 1 # 2)] else [])
  ++ (if nonempty q_first
      then [(spec_part_similarity q_first c_first, 35 # 100)] else [])
  ++ (if nonempty q_middle && nonempty c_middle
      then [(jaroWinkler q_middle c_middle default_p, 15 # 100)] else []).

Definition weighted_sum (parts : list (Q * Q)) : Q :=
  fold_right (fun p acc => fst p * snd p + acc) 0 parts.

Definition total_weight (parts : list (Q * Q)) : Q :=
  fold_right (fun p acc => snd p + acc) 0 parts.

(** [round(weighted_sum / total_weight * 100)], or 0 when the total
    weight is 0. *)
Definition spec_name_score (searchName sdnName : NameParts) : Z :=
  let parts :=
    spec_name_contributions
      (normalizeName (firstName searchName)) (normalizeName (middleName searchName))
      (normalizeName (lastName searchName))
      (normalizeName (firstName sdnName)) (normalizeName (middleName sdnName))
      (normalizeName (lastName sdnName)) in
  if Qeq_bool (total_weight parts) 0 then 0%Z
  else Math_round (weighted_sum parts / total_weight parts * 100).

(** ** The greedy matching, as a relation

    [candidate str1 str2 w i j]: position [j] of [str2] holds the character
    of position [i] of [str1] and lies in the window of [i]. *)
Definition candidate (str1 str2 : list ascii) (w : Z) (i j : nat) : Prop :=
  (exists c, str1 !! i = Some c /\ str2 !! j = Some c)
  /\ (Z.of_nat i - w <= Z.of_nat j <= Z.of_nat i + w)%Z.

(** [greedy cand M]: [M] pairs every left position, in increasing order,
    with the least candidate that no earlier left position has taken. *)
Record greedy (cand M : nat -> nat -> Prop) : Prop := {
  greedy_cand : forall i j, M i j -> cand i j;
  greedy_left : forall i j j', M i j -> M i j' -> j = j';
  greedy_right : forall i i' j, M i j -> M i' j -> i = i';
  greedy_least : forall i j j',
      M i j -> cand i j' -> (j' < j)%nat -> exists i', (i' < i)%nat /\ M i' j';
  greedy_none : forall i j',
      (forall j, ~ M i j) -> cand i j' -> exists i', (i' < i)%nat /\ M i' j';
  greedy_dec : forall i, (exists j, M i j) \/ (forall j, ~ M i j)
}.

(** The characters at the flagged positions, in order. *)
Fixpoint flagged (flags : list bool) (l : list ascii) : list ascii :=
  match flags, l with
  | f :: flags', c :: l' =>
      if f then c :: flagged flags' l' else flagged flags' l'
  | _, _ => []
  end.

(** The number of positions at which two sequences differ. *)
Fixpoint mismatches (l1 l2 : list ascii) : nat :=
  match l1, l2 with
  | c :: l1', d :: l2' =>
      ((if Ascii.eqb c d then 0 else 1) + mismatches l1' l2')%nat
  | _, _ => 0%nat
  end.

Fixpoint count_true (flags : list bool) : nat :=
  match flags with
  | [] => 0%nat
  | b :: rest => ((if b then 1 else 0) + count_true rest)%nat
  end.

(** What holds after [n] iterations of the matching loop on [str1] and
    [str2] with window [w]; [M] is the pairing the loop has built, of
    which the state keeps the two projections and the size. *)
Record match_inv (str1 str2 : list ascii) (w : Z) (n : nat)
    (st : match_state) (M : nat -> nat -> Prop) : Prop := {
  inv_len1 : length (s1Matches st) = length str1;
  inv_len2 : length (s2Matches st) = length str2;
  inv_flag1 : forall i, s1Matches st !! i = Some true <-> exists j, M i j;
  inv_flag2 : forall j, s2Matches st !! j = Some true <-> exists i, M i j;
  inv_bound : forall i j, M i j -> (i < n)%nat;
  inv_cand : forall i j, M i j -> candidate str1 str2 w i j;
  inv_left : forall i j j', M i j -> M i j' -> j = j';
  inv_right : forall i i' j, M i j -> M i' j -> i = i';
  inv_least : forall i j j',
      M i j -> candidate str1 str2 w i j' -> (j' < j)%nat ->
      exists i', (i' < i)%nat /\ M i' j';
  inv_none : forall i j',
      (i < n)%nat -> (forall j, ~ M i j) -> candidate str1 str2 w i j' ->
      exists i', (i' < i)%nat /\ M i' j';
  inv_least_r : forall i j i',
      M i j -> candidate str1 str2 w i' j -> (i' < i)%nat ->
      exists j', (j' < j)%nat /\ M i' j';
  inv_none_r : forall j i',
      (i' < n)%nat -> (forall i, ~ M i j) -> candidate str1 str2 w i' j ->
      exists j', (j' < j)%nat /\ M i' j';
  inv_count1 : matches st = count_true (s1Matches st);
  inv_count2 : matches st = count_true (s2Matches st)
}.

(** A contributing part of a weighted average: a similarity in [0,1]
    with a positive weight. *)
Definition unit_part (p : Q * Q) : Prop :=
  (0 <= fst p <= 1)%Q /\ (0 < snd p)%Q.

(** ** Search hits *)

Definition hit_score (h : SearchHit) : Z := score (result h).

Definition score_desc (a b : SearchHit) : Prop := (hit_score a >= hit_score b)%Z.

Definition has_score (s : Z) (h : SearchHit) : bool := (hit_score h =? s)%Z.

Definition reaches (threshold : Q) (h : SearchHit) : bool :=
  Qle_bool threshold (inject_Z (hit_score h)).

(** A candidate with its score, as [searchSDN] stores it. *)
Definition scored (newDate : string -> option LocalDate) (q : SearchParams)
    (e : SdnEntry) : SearchHit :=
  {| entry := e; result := calculateMatchScore newDate q e |}.

(** ** Sample data *)

(** A query with a name, a date of birth and a street, and no city, state
    or country. *)
Definition sample_query : SearchParams :=
  {| sp_firstName := Some "John"%string; sp_middleName := None;
     sp_lastName := Some "Smith"%string; sp_dob := Some "1975-01-01"%string;
     sp_address := Some "12 High Street"%string; sp_city := None;
     sp_state := None; sp_country := None; sp_idNumber := None |}.

Definition jon_smith : SdnEntry :=
  {| uid := "1"%string; e_firstName := Some "Jon"%string;
     e_middleName := Some ""%string; e_lastName := Some "Smith"%string;
     e_dob := Some "1975-01-01"%string;
     e_address := Some "12 High Street"%string; e_city := Some ""%string;
     e_state := Some ""%string; e_country := Some "GB"%string;
     ids := Some [] |}.

Definition alice_jones : SdnEntry :=
  {| uid := "2"%string; e_firstName := Some "Alice"%string;
     e_middleName := Some ""%string; e_lastName := Some "Jones"%string;
     e_dob := Some ""%string; e_address := Some ""%string;
     e_city := Some ""%string; e_state := Some ""%string;
     e_country := Some ""%string; ids := Some [] |}.

Definition sample_entries : list SdnEntry := [alice_jones; jon_smith].

Definition name_of (first last : string) : NameParts :=
  {| firstName := Some first; middleName := None; lastName := Some last |}.

(** ** Further notions used in the statements *)

(** A name triple with its middle name taken away. *)
Definition without_middle (n : NameParts) : NameParts :=
  {| firstName := firstName n; middleName := None; lastName := lastName n |}.

(** The digits of an identifier of a watch-list entry, as the identifier
    scan of [calculateMatchScore] reads them. *)
Definition id_digits (id : Identifier) : string :=
  match id_number id with
  | Some n => digitsOnly n
  | None => EmptyString
  end.

(** The weight of an address part that is supplied. *)
Definition part_weight (weight : Z) (v : option string) : Z :=
  if truthy v then weight else 0%Z.

(** [[a-z0-9]] *)
Definition is_word_char (c : ascii) : bool := is_lower_az c || is_digit c.

(** [canonical_from prev l]: [l] is made of [[a-z0-9]] and single spaces
    and does not end with a space; [prev] tells that the character before
    [l] is a space (or the start of the text), after which no space may
    follow. *)
Fixpoint canonical_from (prev : bool) (l : list ascii) : bool :=
  match l with
  | [] => negb prev
  | c :: rest =>
      if Ascii.eqb c space then negb prev && canonical_from true rest
      else is_word_char c && canonical_from false rest
  end.

(** A canonical name: empty, or words of [[a-z0-9]] separated by single
    spaces, with no space at either end. *)
Definition canonical (s : string) : bool :=
  match chars s with
  | [] => true
  | l => canonical_from true l
  end.

(** Words of [[a-z0-9]] and single spaces, possibly with a space at the
    end. *)
Fixpoint single_spaced (prev : bool) (l : list ascii) : bool :=
  match l with
  | [] => true
  | c :: rest =>
      if Ascii.eqb c space then negb prev && single_spaced true rest
      else is_word_char c && single_spaced false rest
  end.

(** [l] without the white space at its end. *)
Definition strip_end (l : list ascii) : list ascii :=
  rev (drop_spaces (rev l)).


(** ** The popup: attribute escaping ([popup.js]) *)

Definition apostrophe : ascii := "'"%char.

(** The double quote, U+0022. *)
Definition dquote : ascii := ascii_of_nat 34.

(** [s.replace(/c/g, by)] for a single character [c]. *)
Definition replace_char (c : ascii) (by_text : list ascii) (l : list ascii)
    : list ascii :=
  flat_map (fun x => if Ascii.eqb x c then by_text else [x]) l.

(** [escapeAttr(text)] *)
Definition escapeAttr (text : string) : string :=
  string_of_list_ascii
    (replace_char dquote (chars "&quot;")
       (replace_char apostrophe (chars "&#39;") (chars text))).

(** ** The watch-list file: CSV lines ([utils/ofac-data.js]) *)

Definition comma : ascii := ","%char.

Record csv_state : Type := {
  csv_fields : list string;
  csv_current : list ascii;
  csv_inQuotes : bool
}.

(** [fields.push(current.trim())] *)
Definition push_field (current : list ascii) (fields : list string)
    : list string :=
  fields ++ [string_of_list_ascii (trim current)].

(** The character loop of [parseCSVLine], on what is left of the line.
    Inside quotes a quote followed by a quote adds one quote and skips
    both (the [i++] of the source); any other quote flips [inQuotes]. *)
Fixpoint csv_loop (line : list ascii) (st : csv_state) : csv_state :=
  match line with
  | [] => st
  | c :: rest =>
      if Ascii.eqb c dquote then
        match rest with
        | d :: rest' =>
            if csv_inQuotes st && Ascii.eqb d dquote
            then csv_loop rest'
                   {| csv_fields := csv_fields st;
                      csv_current := csv_current st ++ [dquote];
                      csv_inQuotes := csv_inQuotes st |}
            else csv_loop rest
                   {| csv_fields := csv_fields st;
                      csv_current := csv_current st;
                      csv_inQuotes := negb (csv_inQuotes st) |}
        | [] =>
            {| csv_fields := csv_fields st;
               csv_current := csv_current st;
               csv_inQuotes := negb (csv_inQuotes st) |}
        end
      else if Ascii.eqb c comma && negb (csv_inQuotes st) then
        csv_loop rest
          {| csv_fields := push_field (csv_current st) (csv_fields st);
             csv_current := [];
             csv_inQuotes := csv_inQuotes st |}
      else
        csv_loop rest
          {| csv_fields := csv_fields st;
             csv_current := csv_current st ++ [c];
             csv_inQuotes := csv_inQuotes st |}
  end.

(** [parseCSVLine(line)] *)
Definition parseCSVLine (line : string) : list string :=
  let st :=
    csv_loop (chars line)
      {| csv_fields := []; csv_current := []; csv_inQuotes := false |} in
  push_field (csv_current st) (csv_fields st).

(** [s.split(sep)] for a single character [sep]: the pieces of the text
    between its separators, [current] being the piece under way. *)
Fixpoint split_char (sep : ascii) (current : list ascii) (l : list ascii)
    : list (list ascii) :=
  match l with
  | [] => [current]
  | c :: rest =>
      if Ascii.eqb c sep then current :: split_char sep [] rest
      else split_char sep (current ++ [c]) rest
  end.

(** A field as a CSV writer quotes it: between quotes, every quote
    doubled. *)
Definition quote_field (field : list ascii) : list ascii :=
  dquote :: replace_char dquote [dquote; dquote] field ++ [dquote].

(** A line of quoted fields, a comma between two fields. *)
Fixpoint quoted_line (fields : list (list ascii)) : list ascii :=
  match fields with
  | [] => []
  | [field] => quote_field field
  | field :: rest => quote_field field ++ comma :: quoted_line rest
  end.

Definition trimmed (field : list ascii) : string :=
  string_of_list_ascii (trim field).

(** ** The watch-list file: names and entries ([utils/ofac-data.js]) *)

(** [s.split(/\s+/)]: the pieces of the text between its runs of white
    space; a run at the start or at the end leaves an empty piece there.
    [in_run] tells that the previous character was white space. *)
Fixpoint split_spaces (current : list ascii) (in_run : bool) (l : list ascii)
    : list (list ascii) :=
  match l with
  | [] => [current]
  | c :: rest =>
      if is_space c then
        if in_run then split_spaces current true rest
        else current :: split_spaces [] true rest
      else split_spaces (current ++ [c]) false rest
  end.

(** [parts.join(sep)] *)
Fixpoint join_with (sep : list ascii) (parts : list (list ascii)) : list ascii :=
  match parts with
  | [] => []
  | [p] => p
  | p :: rest => p ++ sep ++ join_with sep rest
  end.

Record ParsedName : Type := {
  pn_firstName : string;
  pn_middleName : string;
  pn_lastName : string
}.

Definition text (l : list ascii) : string := string_of_list_ascii l.

(** [parseName(nameStr)] *)
Definition parseName (nameStr : string) : ParsedName :=
  if negb (nonempty nameStr) then
    {| pn_firstName := EmptyString; pn_middleName := EmptyString;
       pn_lastName := EmptyString |}
  else
    let parts := split_char comma [] (chars nameStr) in
    if Nat.ltb 1 (length parts) then
      let lastName := trim (hd [] parts) in
      let firstMiddle := trim (join_with [comma] (tl parts)) in
      let nameParts := split_spaces [] false firstMiddle in
      if Nat.eqb (length nameParts) 1 then
        {| pn_firstName := text (hd [] nameParts);
           pn_middleName := EmptyString;
           pn_lastName := text lastName |}
      else
        {| pn_firstName := text (hd [] nameParts);
           pn_middleName := text (join_with [space] (tl nameParts));
           pn_lastName := text lastName |}
    else
      let nameParts := split_spaces [] false (chars nameStr) in
      if Nat.eqb (length nameParts) 1 then
        {| pn_firstName := EmptyString; pn_middleName := EmptyString;
           pn_lastName := text (hd [] nameParts) |}
      else if Nat.eqb (length nameParts) 2 then
        {| pn_firstName := text (hd [] nameParts);
           pn_middleName := EmptyString;
           pn_lastName := text (List.nth 1 nameParts []) |}
      else
        {| pn_firstName := text (hd [] nameParts);
           pn_middleName := text (join_with [space] (removelast (tl nameParts)));
           pn_lastName := text (List.last nameParts []) |}.

Definition newline : ascii := ascii_of_nat 10.

Definition semicolon : ascii := ";"%char.

Fixpoint starts_with (needle hay : list ascii) : bool :=
  match needle, hay with
  | [], _ => true
  | c :: needle', d :: hay' => Ascii.eqb c d && starts_with needle' hay'
  | _ :: _, [] => false
  end.

(** [hay.includes(needle)] *)
Fixpoint includes (needle hay : list ascii) : bool :=
  match hay with
  | [] => starts_with needle []
  | _ :: rest => starts_with needle hay || includes needle rest
  end.

Record Alias : Type := {
  alias_firstName : string;
  alias_lastName : string
}.

(** An entry as [parseSDNCSV] builds it. *)
Record ParsedEntry : Type := {
  pe_uid : string;
  pe_firstName : string;
  pe_middleName : string;
  pe_lastName : string;
  pe_fullName : string;
  pe_type : string;
  pe_programs : list string;
  pe_remarks : string;
  pe_dob : string;
  pe_pob : string;
  pe_nationality : string;
  pe_addresses : list string;
  pe_ids : list Identifier;
  pe_aliases : list Alias;
  pe_address : string;
  pe_city : string;
  pe_state : string;
  pe_country : string
}.

(** [fields[k] || ""] *)
Definition field_or_empty (fields : list string) (k : nat) : string :=
  List.nth k fields EmptyString.

(** [s.trim()] on a string. *)
Definition trim_string (s : string) : string := text (trim (chars s)).

(** The type that [parseSDNCSV] derives from the schema column. *)
Definition entry_type (schema : string) : string :=
  let lowered := toLowerCase (chars schema) in
  if includes (chars "person") lowered then "Individual"%string
  else if includes (chars "vessel") lowered then "Vessel"%string
  else if includes (chars "aircraft") lowered then "Aircraft"%string
  else "Entity"%string.

(** The body of the line loop of [parseSDNCSV] for one line: [None] where
    the source [continue]s. *)
Definition parse_entry_line (raw : list ascii) : option ParsedEntry :=
  let line := text (trim raw) in
  if negb (nonempty line) then None
  else
    let fields := parseCSVLine line in
    if Nat.ltb (length fields) 3 then None
    else
      let uid0 := field_or_empty fields 0 in
      let schema := field_or_empty fields 1 in
      let name := field_or_empty fields 2 in
      let aliases := field_or_empty fields 3 in
      let birthDate := field_or_empty fields 4 in
      let countries := field_or_empty fields 5 in
      let addresses := field_or_empty fields 6 in
      let identifiers := field_or_empty fields 7 in
      let sanctions := field_or_empty fields 8 in
      let parsed := parseName name in
      let programs :=
        if nonempty sanctions
        then List.filter nonempty
               (map (fun s => text (trim s))
                  (split_char semicolon [] (chars sanctions)))
        else [] in
      let countryList :=
        if nonempty countries
        then text (trim (hd [] (split_char semicolon [] (chars countries))))
        else EmptyString in
      Some
        {| pe_uid := uid0;
           pe_firstName := pn_firstName parsed;
           pe_middleName := pn_middleName parsed;
           pe_lastName := pn_lastName parsed;
           pe_fullName := name;
           pe_type := entry_type schema;
           pe_programs := programs;
           pe_remarks :=
             String.append "Aliases: "
               (if nonempty aliases then aliases else "None"%string);
           pe_dob := birthDate;
           pe_pob := EmptyString;
           pe_nationality := countryList;
           pe_addresses := [];
           pe_ids :=
             if nonempty identifiers
             then [ {| id_type := "ID"%string; id_number := Some identifiers |} ]
             else [];
           pe_aliases :=
             if nonempty aliases
             then map (fun a => {| alias_firstName := EmptyString;
                                   alias_lastName := text (trim a) |})
                    (split_char semicolon [] (chars aliases))
             else [];
           pe_address := addresses;
           pe_city := EmptyString;
           pe_state := EmptyString;
           pe_country := countryList |}.

(** The line loop of [parseSDNCSV], from the second line on. *)
Fixpoint parse_entry_lines (lines : list (list ascii)) : list ParsedEntry :=
  match lines with
  | [] => []
  | raw :: rest =>
      match parse_entry_line raw with
      | Some e => e :: parse_entry_lines rest
      | None => parse_entry_lines rest
      end
  end.

(** [parseSDNCSV(csvText)] *)
Definition parseSDNCSV (csvText : string) : list ParsedEntry :=
  parse_entry_lines (tl (split_char newline [] (chars csvText))).

(** What the matching engine reads of a parsed entry. *)
Definition sdn_entry_of (pe : ParsedEntry) : SdnEntry :=
  {| uid := pe_uid pe;
     e_firstName := Some (pe_firstName pe);
     e_middleName := Some (pe_middleName pe);
     e_lastName := Some (pe_lastName pe);
     e_dob := Some (pe_dob pe);
     e_address := Some (pe_address pe);
     e_city := Some (pe_city pe);
     e_state := Some (pe_state pe);
     e_country := Some (pe_country pe);
     ids := Some (pe_ids pe) |}.

(** A word: at least one character, none of them white space. *)
Definition is_word (w : list ascii) : Prop :=
  w <> [] /\ Forall (fun c => is_space c = false) w.


(** A watch-list file of one entry, and the entry it holds. *)
Definition sample_csv : string :=
  text (chars "id,schema,name,aliases,birth_date,countries,addresses"
        ++ newline
        :: chars "Q1,Person,Jon Smith,,1975-01-01,gb,12 High Street").

Definition sample_parsed : ParsedEntry :=
  {| pe_uid := "Q1"%string;
     pe_firstName := "Jon"%string;
     pe_middleName := EmptyString;
     pe_lastName := "Smith"%string;
     pe_fullName := "Jon Smith"%string;
     pe_type := "Individual"%string;
     pe_programs := [];
     pe_remarks := "Aliases: None"%string;
     pe_dob := "1975-01-01"%string;
     pe_pob := EmptyString;
     pe_nationality := "gb"%string;
     pe_addresses := [];
     pe_ids := [];
     pe_aliases := [];
     pe_address := "12 High Street"%string;
     pe_city := EmptyString;
     pe_state := EmptyString;
     pe_country := "gb"%string |}.

Definition sample_full_query : SearchParams :=
  {| sp_firstName := Some "Jon"%string; sp_middleName := None;
     sp_lastName := Some "Smith"%string;
     sp_dob := Some "1975-01-01"%string;
     sp_address := Some "12 High Street"%string;
     sp_city := Some "London"%string; sp_state := None;
     sp_country := Some "GB"%string; sp_idNumber := None |}.

(** * Properties *)

Local Close Scope Q_scope.
Local Close Scope Z_scope.

(** ** The matching loop *)

Lemma scan_window_some (c : ascii) (str2 : list ascii) (taken : list bool) n :
  forall j r,
    scan_window c str2 taken j n = Some r ->
    j <= r < j + n /\ taken !! r = Some false /\ str2 !! r = Some c
    /\ forall r', j <= r' < r ->
         ~ (taken !! r' = Some false /\ str2 !! r' = Some c).
Proof.
  induction n as [|n IH]; intros j r; simpl; [discriminate|].
  destruct (taken !! j) as [[|]|] eqn:Ht; destruct (str2 !! j) as [d|] eqn:Hd;
    try (intros H; apply IH in H as (Hr & H1 & H2 & H3);
         repeat split; [lia | lia | done | done |];
         intros r' Hr' [Hf Hc]; destruct (decide (r' = j)) as [->|];
         [congruence | apply (H3 r'); [lia | done]]).
  destruct (Ascii.eqb c d) eqn:Hcd.
  - intros [= <-]. apply Ascii.eqb_eq in Hcd as ->.
    repeat split; [lia | lia | done | done |]. intros r' Hr'. lia.
  - intros H; apply IH in H as (Hr & H1 & H2 & H3).
    repeat split; [lia | lia | done | done |].
    intros r' Hr' [Hf Hc]. destruct (decide (r' = j)) as [->|].
    + rewrite Hd in Hc. injection Hc as ->. rewrite Ascii.eqb_refl in Hcd. done.
    + apply (H3 r'); [lia | done].
Qed.

Lemma scan_window_none (c : ascii) (str2 : list ascii) (taken : list bool) n :
  forall j,
    scan_window c str2 taken j n = None ->
    forall r', j <= r' < j + n ->
      ~ (taken !! r' = Some false /\ str2 !! r' = Some c).
Proof.
  induction n as [|n IH]; intros j; simpl; [intros _ r'; lia|].
  destruct (taken !! j) as [[|]|] eqn:Ht; destruct (str2 !! j) as [d|] eqn:Hd;
    try (intros H r' Hr' [Hf Hc]; destruct (decide (r' = j)) as [->|];
         [congruence | apply (IH _ H r'); [lia | done]]).
  destruct (Ascii.eqb c d) eqn:Hcd; [discriminate|].
  intros H r' Hr' [Hf Hc]. destruct (decide (r' = j)) as [->|].
  - rewrite Hd in Hc. injection Hc as ->. rewrite Ascii.eqb_refl in Hcd. done.
  - apply (IH _ H r'); [lia | done].
Qed.

Lemma count_true_insert (flags : list bool) :
  forall i, flags !! i = Some false ->
    count_true (<[i:=true]> flags) = S (count_true flags).
Proof.
  induction flags as [|b flags IH]; intros [|i]; simpl; try discriminate.
  - intros [= ->]. reflexivity.
  - intros H. rewrite (IH _ H). lia.
Qed.

Lemma count_true_le (flags : list bool) : count_true flags <= length flags.
Proof. induction flags as [|[|] flags IH]; simpl; lia. Qed.

Lemma count_true_replicate n : count_true (replicate n false) = 0.
Proof. induction n; simpl; auto. Qed.

Section Matching.
Variables (str1 str2 : list ascii) (w : Z).

Local Abbreviation cand := (candidate str1 str2 w).

Lemma match_inv_init :
  match_inv str1 str2 w 0 (match_init (length str1) (length str2)) (fun _ _ => False).
Proof.
  split; simpl; try (intros; exfalso; done || lia); try (intros; done).
  - apply length_replicate.
  - apply length_replicate.
  - intros i; split; [|intros [? []]].
    intros H. apply lookup_replicate in H as [? _]. done.
  - intros i; split; [|intros [? []]].
    intros H. apply lookup_replicate in H as [? _]. done.
  - by rewrite count_true_replicate.
  - by rewrite count_true_replicate.
Qed.

Lemma flag_cases (flags : list bool) (i : nat) :
  i < length flags -> flags !! i = Some true \/ flags !! i = Some false.
Proof.
  intros H. destruct (lookup_lt_is_Some_2 flags i H) as [[|] Hb]; auto.
Qed.

Lemma cand_in_window (i j : nat) :
  cand i j ->
  Z.to_nat (window_start w i) <= j
  < Z.to_nat (window_start w i)
    + Z.to_nat (window_end w (length str2) i - window_start w i).
Proof.
  intros [(c & _ & Hc) Hw]. apply lookup_lt_Some in Hc.
  unfold window_start, window_end. lia.
Qed.

Lemma window_cand (i j : nat) (c : ascii) :
  str1 !! i = Some c -> str2 !! j = Some c ->
  Z.to_nat (window_start w i) <= j
  < Z.to_nat (window_start w i)
    + Z.to_nat (window_end w (length str2) i - window_start w i) ->
  cand i j.
Proof.
  intros H1 H2 Hw. split; [eauto|].
  unfold window_start, window_end in Hw. lia.
Qed.

(** A candidate of [n] that the scan passed over is already taken. *)
Lemma passed_is_taken n st M j' :
  match_inv str1 str2 w n st M -> cand n j' ->
  ~ (s2Matches st !! j' = Some false
     /\ str2 !! j' = (str1 !! n)) ->
  exists i', i' < n /\ M i' j'.
Proof.
  intros Hinv Hc Hno. destruct (Hc) as [(c & H1 & H2) _].
  assert (Hlt : j' < length (s2Matches st)).
  { rewrite (inv_len2 _ _ _ _ _ _ Hinv). by apply lookup_lt_Some in H2. }
  destruct (flag_cases _ _ Hlt) as [Ht|Hf].
  - apply (inv_flag2 _ _ _ _ _ _ Hinv) in Ht as [i' Hi']. exists i'. split; [|done].
    by apply (inv_bound _ _ _ _ _ _ Hinv) in Hi'.
  - exfalso. apply Hno. split; [done|]. by rewrite H1.
Qed.

Lemma match_inv_step n st M :
  n < length str1 -> match_inv str1 str2 w n st M ->
  exists M', match_inv str1 str2 w (S n) (match_step str1 str2 w n st) M'.
Proof.
  intros Hn Hinv. unfold match_step.
  destruct (lookup_lt_is_Some_2 str1 n Hn) as [c Hc]. rewrite Hc.
  destruct (scan_window c str2 (s2Matches st) _ _) as [j|] eqn:Hscan.
  - (* position [n] takes [j] *)
    apply scan_window_some in Hscan as (Hw & Hfree & Hj & Hmin).
    assert (Hcand : cand n j) by (by eapply window_cand).
    assert (Hnoj : forall i, ~ M i j).
    { intros i Hi. assert (s2Matches st !! j = Some true) as Ht
        by (apply (inv_flag2 _ _ _ _ _ _ Hinv); eauto). congruence. }
    assert (Hnon : forall j0, ~ M n j0).
    { intros j0 Hj0. apply (inv_bound _ _ _ _ _ _ Hinv) in Hj0. lia. }
    assert (Hbefore : forall j', cand n j' -> j' < j ->
               exists i', i' < n /\ M i' j').
    { intros j' Hc' Hlt. eapply passed_is_taken; eauto.
      rewrite Hc. apply Hmin. pose proof (cand_in_window _ _ Hc'). lia. }
    exists (fun i' j' => M i' j' \/ (i' = n /\ j' = j)).
    split; simpl.
    + rewrite length_insert. apply (inv_len1 _ _ _ _ _ _ Hinv).
    + rewrite length_insert. apply (inv_len2 _ _ _ _ _ _ Hinv).
    + intros i. destruct (decide (i = n)) as [->|Hne].
      * rewrite list_lookup_insert_eq
          by (rewrite (inv_len1 _ _ _ _ _ _ Hinv); done).
        split; [eauto|done].
      * rewrite list_lookup_insert_ne by done.
        rewrite (inv_flag1 _ _ _ _ _ _ Hinv). split.
        -- intros [j0 H]; eauto.
        -- intros [j0 [H|[? _]]]; [eauto|done].
    + intros j0. destruct (decide (j0 = j)) as [->|Hne].
      * rewrite list_lookup_insert_eq by (by apply lookup_lt_Some in Hfree).
        split; [eauto|done].
      * rewrite list_lookup_insert_ne by done.
        rewrite (inv_flag2 _ _ _ _ _ _ Hinv). split.
        -- intros [i0 H]; eauto.
        -- intros [i0 [H|[_ ?]]]; [eauto|done].
    + intros i j0 [H|[-> _]]; [apply (inv_bound _ _ _ _ _ _ Hinv) in H|]; lia.
    + intros i j0 [H|[-> ->]]; [by apply (inv_cand _ _ _ _ _ _ Hinv)|done].
    + intros i j1 j2 [H1|[-> ->]] [H2|[? ->]]; subst;
        try done; try (exfalso; by eapply Hnon).
      by eapply (inv_left _ _ _ _ _ _ Hinv).
    + intros i1 i2 j0 [H1|[-> ->]] [H2|[-> ?]]; subst;
        try done; try (exfalso; by eapply Hnoj).
      by eapply (inv_right _ _ _ _ _ _ Hinv).
    + intros i j1 j2 [H|[-> ->]] Hc2 Hlt.
      * destruct (inv_least _ _ _ _ _ _ Hinv _ _ _ H Hc2 Hlt) as (i' & ? & ?); eauto.
      * destruct (Hbefore _ Hc2 Hlt) as (i' & ? & ?); eauto.
    + intros i j' Hi Hnone Hc2.
      destruct (decide (i = n)) as [->|Hne].
      { exfalso. apply (Hnone j). auto. }
      destruct (inv_none _ _ _ _ _ _ Hinv i j') as (i' & ? & ?);
        [lia | intros j0 H0; apply (Hnone j0); auto | done | eauto].
    + intros i j0 i' [H|[-> ->]] Hc2 Hlt.
      * destruct (inv_least_r _ _ _ _ _ _ Hinv _ _ _ H Hc2 Hlt) as (j' & ? & ?); eauto.
      * destruct (inv_none_r _ _ _ _ _ _ Hinv j i') as (j' & ? & ?); eauto.
    + intros j0 i' Hi Hnone Hc2.
      assert (Hnone0 : forall i, ~ M i j0)
        by (intros i H0; apply (Hnone i); auto).
      destruct (decide (i' = n)) as [->|Hne].
      * exists j. split; [|auto].
        destruct (decide (j0 = j)) as [->|Hnej];
          [exfalso; apply (Hnone n); auto|].
        destruct (decide (j < j0)) as [|Hge]; [done|].
        destruct (Hbefore j0 Hc2) as (i0 & _ & Hi0); [lia|].
        exfalso. by eapply Hnone0.
      * destruct (inv_none_r _ _ _ _ _ _ Hinv j0 i') as (j' & ? & ?);
          [lia | done | done | eauto].
    + rewrite count_true_insert; [by rewrite <- (inv_count1 _ _ _ _ _ _ Hinv)|].
      assert (Hlt : n < length (s1Matches st))
        by (rewrite (inv_len1 _ _ _ _ _ _ Hinv); done).
      destruct (flag_cases _ _ Hlt) as [Ht|Hf]; [|done].
      apply (inv_flag1 _ _ _ _ _ _ Hinv) in Ht as [j0 Hj0]. exfalso. by eapply Hnon.
    + rewrite count_true_insert; [by rewrite <- (inv_count2 _ _ _ _ _ _ Hinv)|done].
  - (* position [n] finds nothing *)
    pose proof (scan_window_none _ _ _ _ _ Hscan) as Hall.
    assert (Htaken : forall j', cand n j' -> exists i', i' < n /\ M i' j').
    { intros j' Hc'. eapply passed_is_taken; eauto.
      rewrite Hc. apply Hall. by apply cand_in_window. }
    exists M. destruct Hinv. split; try done.
    + intros i j0 H. apply inv_bound0 in H. lia.
    + intros i j' Hi Hnone Hc2. destruct (decide (i = n)) as [->|Hne].
      * by apply Htaken.
      * apply inv_none0; [lia|done|done].
    + intros j0 i' Hi Hnone Hc2. destruct (decide (i' = n)) as [->|Hne].
      * destruct (Htaken _ Hc2) as (i0 & _ & H0). exfalso. by eapply Hnone.
      * apply inv_none_r0; [lia|done|done].
Qed.

Lemma match_inv_loop n :
  n <= length str1 ->
  exists M, match_inv str1 str2 w n
    (for_loop n (match_step str1 str2 w)
       (match_init (length str1) (length str2))) M.
Proof.
  induction n as [|n IH]; intros Hn; simpl.
  - eexists. apply match_inv_init.
  - destruct IH as [M HM]; [lia|]. eapply match_inv_step; [lia|done].
Qed.

End Matching.

(** ** The greedy pairing is the same from either side *)

Lemma greedy_agree_step (cand M M' : nat -> nat -> Prop) :
  greedy cand M -> greedy cand M' ->
  forall i, (forall i', i' < i -> forall j, M i' j <-> M' i' j) ->
  forall j, M i j -> M' i j.
Proof.
  intros G G' i IH j Hij.
  destruct (greedy_dec _ _ G' i) as [[j' Hj']|Hnone].
  - destruct (lt_eq_lt_dec j' j) as [[Hlt| ->]|Hgt]; [|done|].
    + destruct (greedy_least _ _ G i j j' Hij (greedy_cand _ _ G' _ _ Hj') Hlt)
        as (i' & Hi' & HM).
      apply IH in HM; [|done].
      pose proof (greedy_right _ _ G' _ _ _ HM Hj'). lia.
    + destruct (greedy_least _ _ G' i j' j Hj' (greedy_cand _ _ G _ _ Hij) Hgt)
        as (i' & Hi' & HM).
      apply IH in HM; [|done].
      pose proof (greedy_right _ _ G _ _ _ HM Hij). lia.
  - destruct (greedy_none _ _ G' i j Hnone (greedy_cand _ _ G _ _ Hij))
      as (i' & Hi' & HM).
    apply IH in HM; [|done].
    pose proof (greedy_right _ _ G _ _ _ HM Hij). lia.
Qed.

Lemma greedy_unique (cand M M' : nat -> nat -> Prop) :
  greedy cand M -> greedy cand M' -> forall i j, M i j <-> M' i j.
Proof.
  intros G G' i. induction (lt_wf i) as [i _ IH].
  intros j; split; apply (greedy_agree_step cand); try done.
  intros i' Hi' j'. symmetry. by apply IH.
Qed.

Lemma candidate_sym (str1 str2 : list ascii) (w : Z) (i j : nat) :
  candidate str1 str2 w i j <-> candidate str2 str1 w j i.
Proof.
  unfold candidate; split; intros [(c & H1 & H2) Hw]; (split; [eauto | lia]).
Qed.

Lemma matchDistance_sym (len1 len2 : nat) :
  matchDistance len1 len2 = matchDistance len2 len1.
Proof. unfold matchDistance. by rewrite Z.max_comm. Qed.

Lemma flags_eq (l1 l2 : list bool) :
  length l1 = length l2 ->
  (forall i, l1 !! i = Some true <-> l2 !! i = Some true) ->
  l1 = l2.
Proof.
  intros Hlen H. apply list_eq. intros i.
  destruct (decide (i < length l1)) as [Hlt|Hge].
  - destruct (flag_cases l1 i Hlt) as [H1|H1];
      destruct (flag_cases l2 i ltac:(lia)) as [H2|H2]; try congruence.
    + apply H in H1. congruence.
    + apply H in H2. congruence.
  - rewrite !lookup_ge_None_2; [done|lia|lia].
Qed.

(** The pairing that [find_matches] builds, seen from both sides. *)
Lemma find_matches_greedy (str1 str2 : list ascii) :
  let w := matchDistance (length str1) (length str2) in
  let st := find_matches str1 str2 in
  exists M,
    greedy (candidate str1 str2 w) M
    /\ greedy (candidate str2 str1 w) (fun j i => M i j)
    /\ (forall i, s1Matches st !! i = Some true <-> exists j, M i j)
    /\ (forall j, s2Matches st !! j = Some true <-> exists i, M i j)
    /\ length (s1Matches st) = length str1
    /\ length (s2Matches st) = length str2
    /\ matches st = count_true (s1Matches st)
    /\ matches st = count_true (s2Matches st).
Proof.
  intros w st.
  destruct (match_inv_loop str1 str2 w (length str1)) as [M H]; [done|].
  fold (find_matches str1 str2) in H. fold st in H. destruct H.
  assert (Hdec1 : forall i, (exists j, M i j) \/ (forall j, ~ M i j)).
  { intros i. destruct (s1Matches st !! i) as [[|]|] eqn:E.
    - left. by apply inv_flag3.
    - right. intros j Hj. assert (s1Matches st !! i = Some true)
        by (apply inv_flag3; eauto). congruence.
    - right. intros j Hj. assert (s1Matches st !! i = Some true)
        by (apply inv_flag3; eauto). congruence. }
  assert (Hdec2 : forall j, (exists i, M i j) \/ (forall i, ~ M i j)).
  { intros j. destruct (s2Matches st !! j) as [[|]|] eqn:E.
    - left. by apply inv_flag4.
    - right. intros i Hi. assert (s2Matches st !! j = Some true)
        by (apply inv_flag4; eauto). congruence.
    - right. intros i Hi. assert (s2Matches st !! j = Some true)
        by (apply inv_flag4; eauto). congruence. }
  assert (Hlt : forall i j, candidate str1 str2 w i j -> i < length str1).
  { intros i j [(c & Hc & _) _]. by apply lookup_lt_Some in Hc. }
  exists M. split; [|split]; [| |done].
  - split; eauto.
  - split; try done.
    + intros j i Hij. apply candidate_sym. eauto.
    + eauto.
    + eauto.
    + intros j i i' Hij Hc Hlt'. apply candidate_sym in Hc. eauto.
    + intros j i' Hnone Hc. apply candidate_sym in Hc. eauto.
Qed.

Lemma find_matches_sym (str1 str2 : list ascii) :
  s1Matches (find_matches str2 str1) = s2Matches (find_matches str1 str2)
  /\ s2Matches (find_matches str2 str1) = s1Matches (find_matches str1 str2)
  /\ matches (find_matches str2 str1) = matches (find_matches str1 str2).
Proof.
  destruct (find_matches_greedy str1 str2)
    as (M & G1 & G1' & F1 & F2 & L1 & L2 & C1 & C2).
  destruct (find_matches_greedy str2 str1)
    as (M' & G2 & _ & F1' & F2' & L1' & L2' & C1' & C2').
  rewrite (matchDistance_sym (length str2)) in G2.
  pose proof (greedy_unique _ _ _ G2 G1') as HM. simpl in HM.
  assert (E1 : s1Matches (find_matches str2 str1)
               = s2Matches (find_matches str1 str2)).
  { apply flags_eq; [congruence|]. intros j. rewrite F1', F2.
    split; intros [i Hi]; exists i; by apply HM. }
  assert (E2 : s2Matches (find_matches str2 str1)
               = s1Matches (find_matches str1 str2)).
  { apply flags_eq; [congruence|]. intros i. rewrite F2', F1.
    split; intros [j Hj]; exists j; by apply HM. }
  repeat split; [done|done|]. by rewrite C1', E1, <- C2.
Qed.

(** ** The transposition loop *)

Lemma flagged_length (flags : list bool) :
  forall l, length flags = length l ->
    length (flagged flags l) = count_true flags.
Proof.
  induction flags as [|[|] flags IH]; intros [|c l]; simpl; try done;
    intros [= H]; rewrite (IH _ H); done.
Qed.

Lemma mismatches_sym (l1 : list ascii) :
  forall l2, mismatches l1 l2 = mismatches l2 l1.
Proof.
  induction l1 as [|c l1 IH]; intros [|d l2]; simpl; try done.
  rewrite (IH l2), (Ascii.eqb_sym c d). done.
Qed.

Lemma mismatches_le (l1 : list ascii) :
  forall l2, mismatches l1 l2 <= length l1.
Proof.
  induction l1 as [|c l1 IH]; intros [|d l2]; simpl; try lia.
  specialize (IH l2). destruct (Ascii.eqb c d); lia.
Qed.

(** From a suffix that still holds a set flag, the scan stops on the first
    one, which heads the flagged characters of that suffix. *)
Lemma first_set_flagged (flags : list bool) :
  forall (l : list ascii) (k : nat),
    length flags = length l -> 0 < count_true flags ->
    exists r c,
      first_set flags k = Some (k + r)
      /\ l !! r = Some c
      /\ flagged flags l = c :: flagged (drop (S r) flags) (drop (S r) l)
      /\ count_true flags = S (count_true (drop (S r) flags)).
Proof.
  induction flags as [|[|] flags IH]; intros [|c l] k; simpl; try done; try lia.
  - intros _ _. exists 0, c. rewrite Nat.add_0_r, !drop_0. done.
  - intros [= Hlen] Hpos.
    destruct (IH l (S k) Hlen Hpos) as (r & c' & H1 & H2 & H3 & H4).
    exists (S r), c'. rewrite <- Nat.add_succ_comm. done.
Qed.

Section Transpositions.
Variables (str1 str2 : list ascii) (st : match_state).
Hypothesis Hlen1 : length (s1Matches st) = length str1.
Hypothesis Hlen2 : length (s2Matches st) = length str2.
Hypothesis Hcount : count_true (s1Matches st) = count_true (s2Matches st).

(** After [n] iterations the loop holds [(k, t)]: what remains to be
    compared are the flagged characters from [n] and from [k] on. *)
Lemma transposition_loop n :
  n <= length str1 ->
  exists k t,
    for_loop n (transposition_step str1 str2 st) (Some (0, 0)) = Some (k, t)
    /\ count_true (drop n (s1Matches st)) = count_true (drop k (s2Matches st))
    /\ t + mismatches (flagged (drop n (s1Matches st)) (drop n str1))
                      (flagged (drop k (s2Matches st)) (drop k str2))
       = mismatches (flagged (s1Matches st) str1) (flagged (s2Matches st) str2).
Proof using Hlen1 Hlen2 Hcount.
  induction n as [|n IH]; intros Hn; simpl.
  - exists 0, 0. rewrite !drop_0. done.
  - destruct IH as (k & t & -> & Hc & Ht); [lia|]. simpl.
    destruct (lookup_lt_is_Some_2 str1 n ltac:(lia)) as [c Hcn].
    destruct (lookup_lt_is_Some_2 (s1Matches st) n ltac:(lia)) as [b Hb].
    rewrite Hb. rewrite (drop_S _ _ _ Hb) in Hc, Ht.
    rewrite (drop_S _ _ _ Hcn) in Ht. simpl in Hc, Ht.
    destruct b.
    + destruct (first_set_flagged (drop k (s2Matches st)) (drop k str2) k)
        as (r & d & H1 & H2 & H3 & H4).
      { rewrite !length_drop. lia. }
      { lia. }
      rewrite H1. rewrite (drop_drop (s2Matches st)) in H3, H4.
      rewrite (drop_drop str2) in H3.
      rewrite lookup_drop in H2.
      exists (S (k + r)), (if Ascii.eqb c d then t else S t).
      rewrite Hcn, H2. simpl. split; [done|].
      replace (S (k + r)) with (k + S r) by lia.
      split; [lia|]. rewrite H3 in Ht. simpl in Ht.
      destruct (Ascii.eqb c d); lia.
    + exists k, t. done.
Qed.

Lemma count_transpositions_spec :
  count_transpositions str1 str2 st
  = Some (mismatches (flagged (s1Matches st) str1) (flagged (s2Matches st) str2)).
Proof using Hlen1 Hlen2 Hcount.
  unfold count_transpositions.
  destruct (transposition_loop (length str1)) as (k & t & -> & _ & Ht); [done|].
  simpl. f_equal. rewrite <- Ht.
  rewrite (drop_ge (s1Matches st)) by lia. simpl. lia.
Qed.

End Transpositions.

(** The transposition scan always finds its next flag: the loop of the
    source terminates, and with at most [matches] transpositions. *)
Lemma count_transpositions_total (str1 str2 : list ascii) :
  let st := find_matches str1 str2 in
  exists t, count_transpositions str1 str2 st = Some t /\ t <= matches st.
Proof.
  intros st.
  destruct (find_matches_greedy str1 str2)
    as (M & _ & _ & _ & _ & L1 & L2 & C1 & C2). fold st in L1, L2, C1, C2.
  eexists. split.
  - apply count_transpositions_spec; congruence.
  - etransitivity; [apply mismatches_le|].
    rewrite flagged_length by done. lia.
Qed.

Lemma count_transpositions_sym (str1 str2 : list ascii) :
  count_transpositions str2 str1 (find_matches str2 str1)
  = count_transpositions str1 str2 (find_matches str1 str2).
Proof.
  destruct (find_matches_greedy str1 str2)
    as (M & _ & _ & _ & _ & L1 & L2 & C1 & C2).
  destruct (find_matches_greedy str2 str1)
    as (M' & _ & _ & _ & _ & L1' & L2' & C1' & C2').
  rewrite !count_transpositions_spec by congruence.
  destruct (find_matches_sym str1 str2) as (-> & -> & _).
  by rewrite mismatches_sym.
Qed.

(** ** Jaro and Jaro-Winkler: range and symmetry *)

Lemma QofN_nonneg (n : nat) : (0 <= QofN n)%Q.
Proof. unfold QofN, Qle; simpl. lia. Qed.

Lemma QofN_pos (n : nat) : 0 < n -> (0 < QofN n)%Q.
Proof. unfold QofN, Qlt; simpl. lia. Qed.

Lemma QofN_le (m n : nat) : m <= n -> (QofN m <= QofN n)%Q.
Proof. unfold QofN, Qle; simpl. lia. Qed.

Lemma Qratio_unit (x y : Q) :
  (0 <= x)%Q -> (x <= y)%Q -> (0 < y)%Q -> (0 <= x / y <= 1)%Q.
Proof.
  intros H0 Hxy Hy. split.
  - apply Qle_shift_div_l; [done|]. lra.
  - apply Qle_shift_div_r; [done|]. lra.
Qed.

Lemma jaro_formula_unit (m t len1 len2 : nat) :
  0 < m -> m <= len1 -> m <= len2 -> t <= m ->
  (0 <= jaro_formula m t len1 len2 <= 1)%Q.
Proof.
  intros Hm H1 H2 Ht. unfold jaro_formula.
  pose proof (Qratio_unit (QofN m) (QofN len1) (QofN_nonneg m)
                (QofN_le _ _ H1) (QofN_pos len1 ltac:(lia))) as [A1 A2].
  pose proof (Qratio_unit (QofN m) (QofN len2) (QofN_nonneg m)
                (QofN_le _ _ H2) (QofN_pos len2 ltac:(lia))) as [B1 B2].
  pose proof (QofN_nonneg t) as T0. pose proof (QofN_le _ _ Ht) as T1.
  assert (0 <= (QofN m - QofN t / 2) / QofN m <= 1)%Q as [C1 C2].
  { assert (QofN t / 2 == QofN t * (1 # 2))%Q as -> by reflexivity.
    apply Qratio_unit; [lra | lra | by apply QofN_pos]. }
  set (a := (QofN m / QofN len1)%Q) in *. set (b := (QofN m / QofN len2)%Q) in *.
  set (c := ((QofN m - QofN t / 2) / QofN m)%Q) in *.
  split.
  - apply Qle_shift_div_l; [reflexivity|]. lra.
  - apply Qle_shift_div_r; [reflexivity|]. lra.
Qed.

Lemma jaro_formula_sym (m t len1 len2 : nat) :
  (jaro_formula m t len1 len2 == jaro_formula m t len2 len1)%Q.
Proof.
  unfold jaro_formula. apply Qmult_comp; [|reflexivity].
  apply Qplus_comp; [apply Qplus_comm | reflexivity].
Qed.

Lemma jaroSimilarity_unit (s1 s2 : string) :
  (0 <= jaroSimilarity s1 s2 <= 1)%Q.
Proof.
  unfold jaroSimilarity.
  destruct (String.eqb s1 s2); [lra|].
  destruct (negb (nonempty s1) || negb (nonempty s2)); [lra|].
  set (str1 := toLowerCase (chars s1)). set (str2 := toLowerCase (chars s2)).
  destruct (Nat.eqb_spec (matches (find_matches str1 str2)) 0) as [|Hm]; [lra|].
  destruct (count_transpositions_total str1 str2) as (t & -> & Ht).
  destruct (find_matches_greedy str1 str2)
    as (M & _ & _ & _ & _ & L1 & L2 & C1 & C2).
  apply jaro_formula_unit; [lia | | | done].
  - rewrite C1, <- L1. apply count_true_le.
  - rewrite C2, <- L2. apply count_true_le.
Qed.

Lemma jaroSimilarity_sym (s1 s2 : string) :
  (jaroSimilarity s1 s2 == jaroSimilarity s2 s1)%Q.
Proof.
  unfold jaroSimilarity. rewrite (String.eqb_sym s2 s1).
  destruct (String.eqb s1 s2); [reflexivity|].
  rewrite (orb_comm (negb (nonempty s2))).
  destruct (negb (nonempty s1) || negb (nonempty s2)); [reflexivity|].
  set (str1 := toLowerCase (chars s1)). set (str2 := toLowerCase (chars s2)).
  destruct (find_matches_sym str1 str2) as (_ & _ & ->).
  rewrite (count_transpositions_sym str1 str2).
  destruct (Nat.eqb (matches (find_matches str1 str2)) 0); [reflexivity|].
  destruct (count_transpositions str1 str2 _); [|reflexivity].
  apply jaro_formula_sym.
Qed.

Lemma same_char_sym (x y : option ascii) : same_char x y = same_char y x.
Proof. destruct x, y; simpl; auto using Ascii.eqb_sym. Qed.

Lemma prefix_loop_sym (str1 str2 : list ascii) n :
  forall i, prefix_loop str1 str2 i n = prefix_loop str2 str1 i n.
Proof.
  induction n as [|n IH]; intros i; simpl; [done|].
  rewrite (same_char_sym (str2 !! i)), IH. done.
Qed.

Lemma prefix_loop_le (str1 str2 : list ascii) n :
  forall i, prefix_loop str1 str2 i n <= n.
Proof.
  induction n as [|n IH]; intros i; simpl; [done|].
  destruct (same_char _ _); [specialize (IH (S i))|]; lia.
Qed.

Lemma common_prefix_sym (str1 str2 : list ascii) :
  common_prefix str1 str2 = common_prefix str2 str1.
Proof.
  unfold common_prefix.
  by rewrite prefix_loop_sym, (Nat.min_comm (length str2)).
Qed.

Lemma common_prefix_le (str1 str2 : list ascii) : common_prefix str1 str2 <= 4.
Proof.
  unfold common_prefix. etransitivity; [apply prefix_loop_le|]. lia.
Qed.

Lemma jaroWinkler_sym (s1 s2 : string) (p : Q) :
  (jaroWinkler s1 s2 p == jaroWinkler s2 s1 p)%Q.
Proof.
  unfold jaroWinkler. rewrite (String.eqb_sym s2 s1).
  destruct (String.eqb s1 s2); [reflexivity|].
  rewrite (orb_comm (negb (nonempty s2))).
  destruct (negb (nonempty s1) || negb (nonempty s2)); [reflexivity|].
  rewrite (common_prefix_sym (toLowerCase (chars s2))).
  rewrite (jaroSimilarity_sym s2 s1). reflexivity.
Qed.

Lemma jaroWinkler_unit (s1 s2 : string) :
  (0 <= jaroWinkler s1 s2 default_p <= 1)%Q.
Proof.
  unfold jaroWinkler.
  destruct (String.eqb s1 s2); [lra|].
  destruct (negb (nonempty s1) || negb (nonempty s2)); [lra|].
  pose proof (jaroSimilarity_unit s1 s2) as [J0 J1].
  set (j := jaroSimilarity s1 s2) in *.
  set (n := common_prefix _ _).
  assert (0 <= QofN n * default_p <= 1)%Q as [P0 P1].
  { pose proof (QofN_nonneg n). pose proof (QofN_le n 4 (common_prefix_le _ _)).
    unfold default_p. replace (QofN 4) with 4%Q in * by reflexivity.
    split; lra. }
  set (c := (QofN n * default_p)%Q) in *.
  assert (0 <= c * (1 - j))%Q by (apply Qmult_le_0_compat; lra).
  assert (c * (1 - j) <= 1 * (1 - j))%Q
    by (apply Qmult_le_compat_r; lra).
  split; lra.
Qed.

(** ** Rounding *)

Lemma Math_round_comp (x y : Q) : (x == y)%Q -> Math_round x = Math_round y.
Proof. intros H. unfold Math_round. by rewrite H. Qed.

Lemma Math_round_mono (x y : Q) : (x <= y)%Q -> (Math_round x <= Math_round y)%Z.
Proof. intros H. unfold Math_round. apply Qfloor_resp_le. lra. Qed.

Lemma Math_round_Z (z : Z) : Math_round (inject_Z z) = z.
Proof.
  unfold Math_round.
  pose proof (Qfloor_le (inject_Z z + (1 # 2))) as Hlo.
  pose proof (Qlt_floor (inject_Z z + (1 # 2))) as Hhi.
  set (f := Qfloor _) in *.
  unfold Qle, Qlt in *; simpl in *. lia.
Qed.

Lemma Math_round_range (x : Q) (lo hi : Z) :
  (inject_Z lo <= x)%Q -> (x <= inject_Z hi)%Q ->
  (lo <= Math_round x <= hi)%Z.
Proof.
  intros Hlo Hhi. split.
  - rewrite <- (Math_round_Z lo). by apply Math_round_mono.
  - rewrite <- (Math_round_Z hi). by apply Math_round_mono.
Qed.

(** Capping before or after rounding is the same. *)
Lemma round_min_100 (x : Q) :
  Z.min 100 (Math_round x) = Math_round (Qmin 100 x).
Proof.
  destruct (Qlt_le_dec 100 x) as [Hgt|Hle].
  - rewrite (Math_round_comp (Qmin 100 x) 100) by (apply Q.min_l; lra).
    change (Math_round 100) with 100%Z.
    pose proof (Math_round_mono 100 x ltac:(lra)) as H.
    change (Math_round 100) with 100%Z in H. lia.
  - rewrite (Math_round_comp (Qmin 100 x) x) by (by apply Q.min_r).
    pose proof (Math_round_mono x 100 Hle) as H.
    change (Math_round 100) with 100%Z in H. lia.
Qed.

(** ** Name and address scores *)

Lemma jaroWinkler_same (s : string) (p : Q) : jaroWinkler s s p = 1%Q.
Proof. unfold jaroWinkler. by rewrite String.eqb_refl. Qed.

Lemma weighted_sum_bounds (parts : list (Q * Q)) :
  Forall unit_part parts ->
  (0 <= weighted_sum parts <= total_weight parts)%Q
  /\ (parts <> [] -> 0 < total_weight parts)%Q.
Proof.
  induction 1 as [|[s wt] parts [[Hs0 Hs1] Hw] _ [[IH0 IH1] IHpos]]; simpl in *.
  - split; [lra | done].
  - assert (0 <= s * wt)%Q by (apply Qmult_le_0_compat; lra).
    assert (s * wt <= 1 * wt)%Q by (apply Qmult_le_compat_r; lra).
    split; [lra|]. intros _.
    destruct parts; [simpl in *; lra | specialize (IHpos ltac:(done)); lra].
Qed.

Lemma spec_part_similarity_unit (x y : string) :
  (0 <= spec_part_similarity x y <= 1)%Q.
Proof.
  unfold spec_part_similarity.
  destruct (nonempty y); [apply jaroWinkler_unit | lra].
Qed.

Lemma spec_name_contributions_unit (qf qm ql cf cm cl : string) :
  Forall unit_part (spec_name_contributions qf qm ql cf cm cl).
Proof.
  unfold spec_name_contributions.
  repeat apply Forall_app_2;
    match goal with |- Forall _ (if ?b then _ else _) => destruct b end;
    repeat constructor; simpl;
    try apply spec_part_similarity_unit; try apply jaroWinkler_unit.
Qed.

Lemma spec_name_score_range (searchName sdnName : NameParts) :
  (0 <= spec_name_score searchName sdnName <= 100)%Z.
Proof.
  unfold spec_name_score.
  set (parts := spec_name_contributions _ _ _ _ _ _).
  destruct (weighted_sum_bounds parts) as [[H0 H1] Hpos];
    [apply spec_name_contributions_unit|].
  destruct (Qeq_bool (total_weight parts) 0) eqn:E; [lia|].
  apply Qeq_bool_neq in E.
  assert (0 < total_weight parts)%Q as Htw by lra.
  destruct (Qratio_unit _ _ H0 H1 Htw) as [R0 R1].
  set (r := (weighted_sum parts / total_weight parts)%Q) in *.
  apply Math_round_range; [change (inject_Z 0) with 0%Q
                          | change (inject_Z 100) with 100%Q]; lra.
Qed.

(** The accumulating code computes the weighted average of the
    contributing parts. *)
Lemma calculateNameSimilarity_spec (searchName sdnName : NameParts) :
  calculateNameSimilarity searchName sdnName = spec_name_score searchName sdnName.
Proof.
  unfold calculateNameSimilarity, spec_name_score, spec_name_contributions,
    spec_part_similarity, add_part.
  generalize (normalizeName (firstName searchName)) as qf.
  generalize (normalizeName (middleName searchName)) as qm.
  generalize (normalizeName (lastName searchName)) as ql.
  generalize (normalizeName (firstName sdnName)) as cf.
  generalize (normalizeName (middleName sdnName)) as cm.
  generalize (normalizeName (lastName sdnName)) as cl.
  intros cl cm cf ql qm qf.
  generalize (jaroWinkler ql cl default_p) as jl.
  generalize (jaroWinkler qf cf default_p) as jf.
  generalize (jaroWinkler qm cm default_p) as jm.
  intros jm jf jl.
  destruct (nonempty ql), (nonempty cl), (nonempty qf), (nonempty cf),
    (nonempty qm), (nonempty cm); simpl;
    repeat match goal with
      | |- context [Qle_bool ?t 0] =>
          let b := eval vm_compute in (Qle_bool t 0) in
          change (Qle_bool t 0) with b
      | |- context [Qeq_bool ?t 0] =>
          let b := eval vm_compute in (Qeq_bool t 0) in
          change (Qeq_bool t 0) with b
      end; simpl; try reflexivity;
    apply Math_round_comp;
    (apply Qmult_comp; [|reflexivity]);
    (apply Qmult_comp; [ring | reflexivity]).
Qed.

Lemma calculateNameSimilarity_range (searchName sdnName : NameParts) :
  (0 <= calculateNameSimilarity searchName sdnName <= 100)%Z.
Proof. rewrite calculateNameSimilarity_spec. apply spec_name_score_range. Qed.

Lemma address_part_bound (wt : Q) (x y : option string) (acc : Q * nat) (hi : Q) :
  (0 <= wt)%Q -> (0 <= fst acc <= hi)%Q ->
  (0 <= fst (address_part wt x y acc) <= hi + wt)%Q.
Proof.
  intros Hw [H0 H1]. unfold address_part.
  destruct (truthy x && truthy y); simpl; [|lra].
  pose proof (jaroWinkler_unit (normalizeName x) (normalizeName y)) as [J0 J1].
  set (j := jaroWinkler _ _ _) in *.
  assert (0 <= j * wt)%Q by (apply Qmult_le_0_compat; lra).
  assert (j * wt <= 1 * wt)%Q by (apply Qmult_le_compat_r; lra).
  lra.
Qed.

Lemma calculateAddressSimilarity_range (searchAddr sdnAddr : Address) :
  (0 <= calculateAddressSimilarity searchAddr sdnAddr <= 100)%Z.
Proof.
  unfold calculateAddressSimilarity.
  set (a0 := (0%Q, 0%nat)).
  set (a1 := address_part 40 _ _ a0).
  set (a2 := address_part 20 _ _ a1).
  set (a3 := address_part 25 _ _ a2).
  set (a4 := address_part 15 _ _ a3).
  assert (0 <= fst a1 <= 0 + 40)%Q as B1
    by (apply address_part_bound; simpl; lra).
  assert (0 <= fst a2 <= 0 + 40 + 20)%Q as B2
    by (apply address_part_bound; [lra|done]).
  assert (0 <= fst a3 <= 0 + 40 + 20 + 25)%Q as B3
    by (apply address_part_bound; [lra|done]).
  assert (0 <= fst a4 <= 0 + 40 + 20 + 25 + 15)%Q as B4
    by (apply address_part_bound; [lra|done]).
  destruct (Nat.ltb 0 (snd a4)); [|lia].
  apply Math_round_range; [change (inject_Z 0) with 0%Q
                          | change (inject_Z 100) with 100%Q]; lra.
Qed.

(** ** Sorting by score *)

Lemma insert_sorted_perm (x : SearchHit) (l : list SearchHit) :
  Permutation (x :: l) (insert_sorted by_score_desc x l).
Proof.
  induction l as [|y l IH]; simpl; [done|].
  destruct (by_score_desc y x <? 0)%Z; [|done].
  rewrite perm_swap. by apply perm_skip.
Qed.

Lemma array_sort_perm (l : list SearchHit) :
  Permutation l (array_sort by_score_desc l).
Proof.
  induction l as [|x l IH]; simpl; [done|].
  rewrite <- insert_sorted_perm. by apply perm_skip.
Qed.

Lemma insert_sorted_desc (x : SearchHit) (l : list SearchHit) :
  StronglySorted score_desc l ->
  StronglySorted score_desc (insert_sorted by_score_desc x l).
Proof.
  induction 1 as [|y l Hs IH Hy]; simpl.
  - repeat constructor.
  - destruct (Z.ltb_spec (by_score_desc y x) 0) as [Hlt|Hge];
      unfold by_score_desc in *.
    + constructor; [done|].
      apply (Permutation_Forall (insert_sorted_perm x l)).
      constructor; [unfold score_desc, hit_score; lia | done].
    + constructor; [by constructor|].
      constructor; [unfold score_desc, hit_score; lia|].
      eapply Forall_impl; [exact Hy|].
      unfold score_desc, hit_score. intros z Hz. lia.
Qed.

Lemma array_sort_desc (l : list SearchHit) :
  StronglySorted score_desc (array_sort by_score_desc l).
Proof.
  induction l as [|x l IH]; simpl; [constructor | by apply insert_sorted_desc].
Qed.

(** An inserted element only moves past strictly higher scores, so the
    hits of any one score keep their order. *)
Lemma insert_sorted_stable (s : Z) (x : SearchHit) (l : list SearchHit) :
  List.filter (has_score s) (insert_sorted by_score_desc x l)
  = List.filter (has_score s) (x :: l).
Proof.
  induction l as [|y l IH]; simpl; [done|].
  destruct (Z.ltb_spec (by_score_desc y x) 0) as [Hlt|Hge]; [|done].
  simpl. rewrite IH. simpl. unfold has_score, by_score_desc, hit_score in *.
  destruct (Z.eqb_spec (score (result y)) s), (Z.eqb_spec (score (result x)) s);
    try done. lia.
Qed.

Lemma array_sort_stable (s : Z) (l : list SearchHit) :
  List.filter (has_score s) (array_sort by_score_desc l)
  = List.filter (has_score s) l.
Proof.
  induction l as [|x l IH]; simpl; [done|].
  rewrite insert_sorted_stable. simpl. by rewrite IH.
Qed.

(** ** The scorer and the search *)

Section EngineProperties.
Variable newDate : string -> option LocalDate.

Lemma collect_filter (q : SearchParams) (es : list SdnEntry) (t : Q) :
  collect newDate q es t = List.filter (reaches t) (map (scored newDate q) es).
Proof.
  induction es as [|e es IH]; simpl; [done|].
  unfold reaches at 1, hit_score; simpl. rewrite IH.
  by destruct (Qle_bool t _).
Qed.

Lemma searchSDN_In (q : SearchParams) (es : list SdnEntry) (t : Q) (h : SearchHit) :
  In h (searchSDN newDate q es t)
  <-> (exists e, In e es /\ h = scored newDate q e) /\ (t <= inject_Z (hit_score h))%Q.
Proof.
  unfold searchSDN.
  rewrite <- (Permutation_in' (eq_refl h) (array_sort_perm _)).
  rewrite collect_filter, filter_In, in_map_iff.
  unfold reaches. rewrite Qle_bool_iff. split.
  - intros [(e & <- & He) Ht]. eauto.
  - intros [(e & He & ->) Ht]. eauto.
Qed.


End EngineProperties.

(** ** Strings that are identical after lower-casing *)

Lemma mismatches_same (l : list ascii) : mismatches l l = 0.
Proof. induction l as [|c l IH]; simpl; [done|]. by rewrite Ascii.eqb_refl. Qed.

Lemma count_true_all (n : nat) : count_true (replicate n true) = n.
Proof. induction n; simpl; auto. Qed.

Lemma matchDistance_nonneg (n : nat) : 2 <= n -> (0 <= matchDistance n n)%Z.
Proof.
  intros Hn. unfold matchDistance. rewrite Z.max_id.
  assert (1 <= Z.of_nat n / 2)%Z by (apply Z.div_le_lower_bound; lia). lia.
Qed.

(** On two copies of a string of two characters or more, every position
    is paired with itself. *)
Lemma find_matches_same (l : list ascii) :
  2 <= length l ->
  find_matches l l
  = {| s1Matches := replicate (length l) true;
       s2Matches := replicate (length l) true;
       matches := length l |}.
Proof.
  intros Hlen.
  destruct (find_matches_greedy l l)
    as (M & G & _ & F1 & F2 & L1 & L2 & C1 & C2).
  pose proof (matchDistance_nonneg _ Hlen) as Hw.
  set (w := matchDistance (length l) (length l)) in *.
  assert (Gid : greedy (candidate l l w) (fun i j => i = j /\ i < length l)).
  { split.
    - intros i j [<- Hi]. destruct (lookup_lt_is_Some_2 l i Hi) as [c Hc].
      split; [eauto | lia].
    - intros i j j' [<- _] [<- _]. done.
    - intros i i' j [-> _] [-> _]. done.
    - intros i j j' [<- _] [(c & _ & Hc) _] Hlt.
      exists j'. apply lookup_lt_Some in Hc. done.
    - intros i j' Hnone [(c & Hc & _) _]. apply lookup_lt_Some in Hc.
      exfalso. apply (Hnone i). done.
    - intros i. destruct (decide (i < length l)); [left; eauto|].
      right. intros j [_ ?]. done. }
  pose proof (greedy_unique _ _ _ G Gid) as HM.
  assert (E1 : s1Matches (find_matches l l) = replicate (length l) true).
  { apply flags_eq; [by rewrite length_replicate|]. intros i.
    rewrite F1, lookup_replicate. split.
    - intros [j Hj]. apply HM in Hj as [_ ?]. done.
    - intros [_ Hi]. exists i. apply HM. done. }
  assert (E2 : s2Matches (find_matches l l) = replicate (length l) true).
  { apply flags_eq; [by rewrite length_replicate|]. intros j.
    rewrite F2, lookup_replicate. split.
    - intros [i Hi]. apply HM in Hi as [<- ?]. done.
    - intros [_ Hj]. exists j. apply HM. done. }
  rewrite E1, count_true_all in C1.
  destruct (find_matches l l); simpl in *. by subst.
Qed.

Lemma jaro_formula_full (n : nat) : 0 < n -> (jaro_formula n 0 n n == 1)%Q.
Proof.
  intros Hn. unfold jaro_formula. pose proof (QofN_pos n Hn).
  change (QofN 0) with 0%Q. field. lra.
Qed.

Lemma chars_inj (s1 s2 : string) : chars s1 = chars s2 -> s1 = s2.
Proof.
  intros H. rewrite <- (string_of_list_ascii_of_string s1),
    <- (string_of_list_ascii_of_string s2). unfold chars in H. by rewrite H.
Qed.

Lemma case_fold_length (s1 s2 : string) :
  toLowerCase (chars s1) = toLowerCase (chars s2) ->
  length (chars s1) = length (chars s2).
Proof.
  intros H. rewrite <- (length_map lower_char (chars s1)),
    <- (length_map lower_char (chars s2)).
  fold (toLowerCase (chars s1)). fold (toLowerCase (chars s2)). by rewrite H.
Qed.

Lemma nonempty_chars (s : string) : nonempty s = true <-> chars s <> [].
Proof.
  unfold nonempty. rewrite negb_true_iff, String.eqb_neq. split.
  - intros Hne Hc. apply Hne, chars_inj. by rewrite Hc.
  - intros Hc ->. by apply Hc.
Qed.

(** Two different strings that are identical after lower-casing are not
    empty. *)
Lemma case_fold_nonempty (s1 s2 : string) :
  toLowerCase (chars s1) = toLowerCase (chars s2) -> s1 <> s2 ->
  nonempty s1 = true /\ nonempty s2 = true.
Proof.
  intros Hlow Hne. pose proof (case_fold_length _ _ Hlow) as Hl.
  rewrite !nonempty_chars.
  split; intros Hc; apply Hne, chars_inj; rewrite Hc in *;
    [destruct (chars s2) | destruct (chars s1)]; done.
Qed.

(** The similarity of two strings that are identical after lower-casing
    is 1 unless they have a single character (and differ in it). *)
Lemma jaroSimilarity_case_fold (s1 s2 : string) :
  toLowerCase (chars s1) = toLowerCase (chars s2) ->
  length (chars s1) <> 1 ->
  (jaroSimilarity s1 s2 == 1)%Q.
Proof.
  intros Hlow Hlen. unfold jaroSimilarity.
  destruct (String.eqb_spec s1 s2) as [|Hne]; [reflexivity|].
  destruct (case_fold_nonempty _ _ Hlow Hne) as [H1 H2].
  rewrite H1, H2. simpl. rewrite <- Hlow.
  apply nonempty_chars in H1.
  set (l := toLowerCase (chars s1)).
  assert (Hll : length l = length (chars s1)) by apply length_map.
  assert (2 <= length l).
  { rewrite Hll. destruct (chars s1) as [|c [|d l1]]; simpl in *; done || lia. }
  rewrite find_matches_same by done. simpl.
  destruct (Nat.eqb_spec (length l) 0); [lia|].
  rewrite count_transpositions_spec; simpl;
    rewrite ?length_replicate, ?mismatches_same; try done.
  apply jaro_formula_full. lia.
Qed.

Lemma jaroWinkler_case_fold (s1 s2 : string) (p : Q) :
  toLowerCase (chars s1) = toLowerCase (chars s2) ->
  length (chars s1) <> 1 ->
  (jaroWinkler s1 s2 p == 1)%Q.
Proof.
  intros Hlow Hlen. unfold jaroWinkler.
  destruct (String.eqb_spec s1 s2) as [|Hne]; [reflexivity|].
  destruct (case_fold_nonempty _ _ Hlow Hne) as [-> ->]. simpl.
  rewrite (jaroSimilarity_case_fold s1 s2 Hlow Hlen). ring.
Qed.

(** Capping the rounded sum, as the code does, or rounding the capped
    sum, as the specification words it, is the same. *)
Lemma overall_score_spec (newDate : string -> option LocalDate)
    (q : SearchParams) (e : SdnEntry) :
  let r := calculateMatchScore newDate q e in
  score r
  = spec_overall_score (nameScore r) (dobMatch r) (addressScore r) (idMatch r).
Proof.
  intros r. subst r. unfold calculateMatchScore. simpl.
  unfold spec_overall_score. rewrite <- round_min_100. f_equal.
  apply Math_round_comp.
  match goal with |- context [if ?b then (_ + 5)%Q else _] => destruct b end;
    match goal with |- context [if ?b then (_ + 20)%Q else _] => destruct b end;
    ring.
Qed.

Lemma same_day_eq (d1 d2 : LocalDate) :
  same_day d1 d2 = true
  <-> getFullYear d1 = getFullYear d2 /\ getMonth d1 = getMonth d2
      /\ getDate d1 = getDate d2.
Proof. unfold same_day. rewrite !andb_true_iff, !Z.eqb_eq. tauto. Qed.

(** * The claims *)

Local Open Scope string_scope.


(** C2. [searchSDN] returns only candidates whose overall score, as
    [calculateMatchScore] computes it, reaches the threshold; with the
    default threshold 85 no returned score is below 85; and for
    thresholds [t1 <= t2] every result at [t2] is a result at [t1]. *)
Theorem C2_threshold_monotone (newDate : string -> option LocalDate)
    (q : SearchParams) (es : list SdnEntry) (t1 t2 : Q) :
  Forall (fun h => In (entry h) es
                   /\ result h = calculateMatchScore newDate q (entry h)
                   /\ (t1 <= inject_Z (score (result h)))%Q)
    (searchSDN newDate q es t1)
  /\ Forall (fun h => (85 <= score (result h))%Z)
       (searchSDN newDate q es default_threshold)
  /\ ((t1 <= t2)%Q ->
      forall h, In h (searchSDN newDate q es t2) -> In h (searchSDN newDate q es t1)).
Proof.
  split; [|split].
  - apply List.Forall_forall. intros h Hh.
    apply searchSDN_In in Hh as [(e & He & ->) Ht]. done.
  - apply List.Forall_forall. intros h Hh.
    apply searchSDN_In in Hh as [_ Ht]. unfold default_threshold in Ht.
    change 85%Q with (inject_Z 85) in Ht. by rewrite Zle_Qle.
  - intros Hle h Hh. apply searchSDN_In in Hh as [He Ht].
    apply searchSDN_In. split; [done|]. lra.
Qed.

(** A witness of C2 on the sample data, with thresholds 50 and 85. *)
Lemma C2_threshold_monotone_witness :
  (50 <= 85)%Q
  /\ forall h,
       In h (searchSDN (referenceDate 0) sample_query sample_entries 85) ->
       In h (searchSDN (referenceDate 0) sample_query sample_entries 50).
Proof.
  assert (H : (50 <= 85)%Q) by (vm_compute; discriminate).
  split; [exact H|].
  exact (proj2 (proj2 (C2_threshold_monotone (referenceDate 0) sample_query
                         sample_entries 50 85)) H).
Defined.




(** C4, as the code has it.  [matchDOB] returns false when either side is
    empty or absent.  For two non-empty strings it returns true when
    their digit-only forms are equal and hold a digit, without parsing;
    and when the digit-only forms differ it returns true exactly when
    both original strings parse as dates that agree on year, month and
    day, hence false when either is unparseable. *)
Theorem C4_matchDOB_cases (newDate : string -> option LocalDate)
    (searchDOB sdnDOB : option string) :
  (truthy searchDOB = false \/ truthy sdnDOB = false ->
   matchDOB newDate searchDOB sdnDOB = false)
  /\ (forall a b,
        searchDOB = Some a -> sdnDOB = Some b ->
        nonempty a = true -> nonempty b = true ->
        (digitsOnly a = digitsOnly b -> nonempty (digitsOnly a) = true ->
         matchDOB newDate searchDOB sdnDOB = true)
        /\ (digitsOnly a <> digitsOnly b ->
            (matchDOB newDate searchDOB sdnDOB = true
             <-> exists d1 d2,
                   newDate a = Some d1 /\ newDate b = Some d2
                   /\ getFullYear d1 = getFullYear d2
                   /\ getMonth d1 = getMonth d2
                   /\ getDate d1 = getDate d2)
            /\ (newDate a = None \/ newDate b = None ->
                matchDOB newDate searchDOB sdnDOB = false))).
Proof.
  split.
  - unfold matchDOB. intros [-> | ->]; simpl; [done|]. by rewrite orb_true_r.
  - intros a b -> -> Ha Hb. unfold matchDOB, truthy.
    fold (nonempty a). fold (nonempty b). rewrite Ha, Hb. simpl. split.
    + intros -> _. by rewrite String.eqb_refl.
    + intros Hd. apply String.eqb_neq in Hd. rewrite Hd. split.
      * destruct (newDate a) as [d1|], (newDate b) as [d2|]; split;
          try discriminate;
          try (intros (x & y & H1 & H2 & _); discriminate).
        -- intros H. exists d1, d2. by apply same_day_eq in H.
        -- intros (x & y & [= <-] & [= <-] & H). by apply same_day_eq.
      * intros [-> | ->]; [done|]. by destruct (newDate a).
Qed.

(** A witness of C4 on the reference host in UTC. *)
Lemma C4_matchDOB_cases_witness :
  matchDOB (referenceDate 0) (Some "1980-05-12") (Some "1980/05/12") = true
  /\ matchDOB (referenceDate 0) (Some "1980-05-12") (Some "1981-13-45") = false
  /\ matchDOB (referenceDate 0) (Some "1980-05-12") (Some "") = false.
Proof.
  pose proof (C4_matchDOB_cases (referenceDate 0)) as H.
  split; [|split].
  - apply (proj1 (proj2 (H (Some "1980-05-12") (Some "1980/05/12"))
                    "1980-05-12" "1980/05/12" eq_refl eq_refl eq_refl eq_refl));
      reflexivity.
  - apply (proj2 (proj2 (proj2 (H (Some "1980-05-12") (Some "1981-13-45"))
                    "1980-05-12" "1981-13-45" eq_refl eq_refl eq_refl eq_refl)
                    ltac:(vm_compute; discriminate))).
    right. reflexivity.
  - apply (proj1 (H (Some "1980-05-12") (Some ""))). right. reflexivity.
Defined.

(** C4 as stated fails either way it is read.  Read in sequence, the
    digit-only comparison would come first and accept two empty strings,
    which the code rejects; read with "false whenever unparseable" as a
    rule of its own, an impossible date would never match, yet the code
    matches it against a string with the same digits without parsing. *)
Lemma C4_matchDOB_counterexample :
  (digitsOnly "" = digitsOnly ""
   /\ matchDOB (referenceDate 0) (Some "") (Some "") = false)
  /\ (referenceDate 0 "1980-13-45" = None
      /\ matchDOB (referenceDate 0) (Some "1980-13-45") (Some "1980-13-45") = true).
Proof. vm_compute. repeat split. Qed.

(** C5 at the failing input: "A" and "a" are identical after
    lower-casing, yet the window of a one-character string is empty, no
    character is matched, the Jaro similarity is 0 and the Jaro-Winkler
    similarity is 0.1.  Every other pair of strings that are identical
    after lower-casing (identical as given, or of any other length) has
    similarity exactly 1. *)
Theorem C5_single_character_case_fold :
  (toLowerCase (chars "A") = toLowerCase (chars "a")
   /\ matchDistance 1 1 = (-1)%Z
   /\ (jaroSimilarity "A" "a" == 0)%Q
   /\ (jaroWinkler "A" "a" default_p == 1 # 10)%Q)
  /\ (forall s1 s2 : string,
        toLowerCase (chars s1) = toLowerCase (chars s2) ->
        length (chars s1) <> 1%nat \/ s1 = s2 ->
        (jaroSimilarity s1 s2 == 1)%Q
        /\ (jaroWinkler s1 s2 default_p == 1)%Q).
Proof.
  split; [vm_compute; repeat split|].
  intros s1 s2 Hlow [Hlen | ->].
  - split; [by apply jaroSimilarity_case_fold | by apply jaroWinkler_case_fold].
  - unfold jaroSimilarity, jaroWinkler. rewrite String.eqb_refl.
    split; reflexivity.
Qed.

(** C6. In the list [searchSDN] returns, a result that comes before
    another has a score at least as high, and the results of any one
    score are exactly the candidates of that score that reach the
    threshold, in the order of the input collection. *)
Theorem C6_sorted_stable (newDate : string -> option LocalDate)
    (q : SearchParams) (es : list SdnEntry) (t : Q) :
  (forall (i j : nat) (a b : SearchHit),
      (i < j)%nat ->
      searchSDN newDate q es t !! i = Some a ->
      searchSDN newDate q es t !! j = Some b ->
      (score (result a) >= score (result b))%Z)
  /\ (forall s : Z,
        List.filter (has_score s) (searchSDN newDate q es t)
        = List.filter (has_score s)
            (List.filter (reaches t) (map (scored newDate q) es))).
Proof.
  split.
  - intros i j a b Hij Ha Hb.
    pose proof (array_sort_desc (collect newDate q es t)) as Hs.
    fold (searchSDN newDate q es t) in Hs.
    revert i j Hij Ha Hb.
    induction Hs as [|x l Hs IH Hx]; intros [|i] [|j] Hij Ha Hb;
      simpl in *; try done; try lia.
    + injection Ha as ->. rewrite List.Forall_forall in Hx.
      apply Hx. apply list_elem_of_In. by eapply list_elem_of_lookup_2.
    + apply (IH i j); [lia|done|done].
  - intros s. unfold searchSDN.
    by rewrite array_sort_stable, collect_filter.
Qed.

(** C7, as the code has it.  With the default scaling factor
    [jaroWinkler] stays in [0,1]; against the empty string it gives 0 for
    a non-empty string and 1 for the empty string, which is identical to
    it; the name score, the address score and the overall score of
    [calculateMatchScore] stay in [0,100]. *)
Theorem C7_score_ranges :
  (forall s1 s2, (0 <= jaroWinkler s1 s2 default_p <= 1)%Q)
  /\ (forall s,
        jaroWinkler s "" default_p = (if nonempty s then 0 else 1)%Q
        /\ jaroWinkler "" s default_p = (if nonempty s then 0 else 1)%Q)
  /\ (forall (newDate : string -> option LocalDate) q e,
        let r := calculateMatchScore newDate q e in
        (0 <= nameScore r <= 100)%Z
        /\ (0 <= addressScore r <= 100)%Z
        /\ (0 <= score r <= 100)%Z).
Proof.
  split; [apply jaroWinkler_unit|]. split.
  - intros s. unfold jaroWinkler, nonempty. rewrite (String.eqb_sym "" s).
    destruct (String.eqb s ""); simpl; split; rewrite ?orb_true_r; done.
  - intros newDate q e r.
    assert (Hn : (0 <= nameScore r <= 100)%Z)
      by apply calculateNameSimilarity_range.
    assert (Ha : (0 <= addressScore r <= 100)%Z).
    { subst r. unfold calculateMatchScore; simpl.
      destruct (_ || _); [apply calculateAddressSimilarity_range | lia]. }
    split; [done|]. split; [done|].
    pose proof (overall_score_spec newDate q e) as Hs.
    fold r in Hs. rewrite Hs. unfold spec_overall_score.
    rewrite <- round_min_100. split; [|lia].
    apply Z.min_glb; [lia|].
    apply (Z.le_trans _ (Math_round 0)); [by vm_compute|].
    apply Math_round_mono.
    assert (0 <= inject_Z (nameScore r))%Q
      by (change 0%Q with (inject_Z 0); rewrite <- Zle_Qle; lia).
    assert (0 <= inject_Z (addressScore r))%Q
      by (change 0%Q with (inject_Z 0); rewrite <- Zle_Qle; lia).
    set (n := inject_Z (nameScore r)) in *.
    set (a := inject_Z (addressScore r)) in *.
    destruct (dobMatch r), (idMatch r); lra.
Qed.

(** C7 as stated fails: two empty strings are identical, and identical
    strings score 1, not 0. *)
Lemma C7_both_empty_counterexample :
  (jaroWinkler "" "" default_p == 1)%Q
  /\ ~ (jaroWinkler "" "" default_p == 0)%Q.
Proof. vm_compute. split; [reflexivity | discriminate]. Qed.

(** C8. The similarity is symmetric: swapping the two strings changes
    neither the Jaro similarity nor, for any scaling factor, the
    Jaro-Winkler similarity. *)
Theorem C8_similarity_symmetric (s1 s2 : string) (p : Q) :
  (jaroSimilarity s1 s2 == jaroSimilarity s2 s1)%Q
  /\ (jaroWinkler s1 s2 p == jaroWinkler s2 s1 p)%Q
  /\ (jaroWinkler s1 s2 default_p == jaroWinkler s2 s1 default_p)%Q.
Proof.
  split; [apply jaroSimilarity_sym | split; apply jaroWinkler_sym].
Qed.

(** C9 at the failing input.  The digit-only forms of "1980-05-12" and
    "05/12/1980" differ, so the answer is left to the host's parsing of
    the two strings; on a host five hours behind UTC the date-only form
    is midnight UTC, that is 11 May local time, and the comparison fails,
    while on a host at UTC it succeeds.  "1980-05-12" and "1980-05-13"
    never match on the reference host. *)
Theorem C9_dob_examples :
  digitsOnly "1980-05-12" <> digitsOnly "05/12/1980"
  /\ (forall newDate : string -> option LocalDate,
        matchDOB newDate (Some "1980-05-12") (Some "05/12/1980")
        = match newDate "1980-05-12", newDate "05/12/1980" with
          | Some d1, Some d2 => same_day d1 d2
          | _, _ => false
          end)
  /\ referenceDate (-300) "1980-05-12"
     = Some {| getFullYear := 1980; getMonth := 4; getDate := 11 |}
  /\ referenceDate (-300) "05/12/1980"
     = Some {| getFullYear := 1980; getMonth := 4; getDate := 12 |}
  /\ matchDOB (referenceDate (-300)) (Some "1980-05-12") (Some "05/12/1980") = false
  /\ matchDOB (referenceDate 0) (Some "1980-05-12") (Some "05/12/1980") = true
  /\ (forall tz,
        matchDOB (referenceDate tz) (Some "1980-05-12") (Some "1980-05-13") = false).
Proof.
  split; [vm_compute; discriminate|].
  split; [intros newDate; reflexivity|].
  repeat split; try (vm_compute; reflexivity).
  intros [|p|p]; vm_compute; reflexivity.
Qed.

(** C10. For a query whose country, city and state are all empty or
    absent, [calculateMatchScore] leaves the address score at 0 and the
    overall score is the capped, rounded sum of the name, date-of-birth
    and identifier terms alone, whatever street address the query and the
    candidate hold. *)
Theorem C10_address_gate (newDate : string -> option LocalDate)
    (q : SearchParams) (e : SdnEntry)
    (Hcountry : truthy (sp_country q) = false)
    (Hcity : truthy (sp_city q) = false)
    (Hstate : truthy (sp_state q) = false) :
  let r := calculateMatchScore newDate q e in
  addressScore r = 0%Z
  /\ score r
     = Z.min 100
         (Math_round (inject_Z (nameScore r) * (6 # 10)
                      + (if dobMatch r then 20 else 0)
                      + (if idMatch r then 5 else 0))).
Proof.
  intros r. subst r. unfold calculateMatchScore. simpl.
  rewrite Hcountry, Hcity, Hstate. simpl. split; [done|].
  f_equal. apply Math_round_comp.
  match goal with |- context [if ?b then (_ + 5)%Q else _] => destruct b end;
    match goal with |- context [if ?b then (_ + 20)%Q else _] => destruct b end;
    ring.
Qed.

(** A witness of C10: the street is the same on both sides and would
    score 15 on its own, yet the address score stays 0. *)
Lemma C10_address_gate_witness :
  calculateAddressSimilarity (search_address sample_query)
    (entry_address jon_smith) = 15%Z
  /\ let r := calculateMatchScore (referenceDate 0) sample_query jon_smith in
     addressScore r = 0%Z
     /\ score r
        = Z.min 100
            (Math_round (inject_Z (nameScore r) * (6 # 10)
                         + (if dobMatch r then 20 else 0)
                         + (if idMatch r then 5 else 0))).
Proof.
  split; [vm_compute; reflexivity|].
  apply (C10_address_gate (referenceDate 0) sample_query jon_smith);
    reflexivity.
Defined.

(** * Further properties of the engine *)

Local Close Scope string_scope.

(** ** Similarity *)

(** X1. With a scaling factor between 0 and 0.25, the bound its
    documentation gives, the prefix boost never lowers the Jaro
    similarity and never takes the result above 1. *)
Theorem X1_prefix_boost_bounds (s1 s2 : string) (p : Q)
    (Hp : (0 <= p <= 1 # 4)%Q) :
  (jaroSimilarity s1 s2 <= jaroWinkler s1 s2 p)%Q
  /\ (jaroWinkler s1 s2 p <= 1)%Q.
Proof.
  destruct Hp as [Hp0 Hp1].
  pose proof (jaroSimilarity_unit s1 s2) as [J0 J1].
  unfold jaroWinkler. unfold jaroSimilarity in *.
  destruct (String.eqb s1 s2); [split; lra|].
  destruct (negb (nonempty s1) || negb (nonempty s2)); [split; lra|].
  match type of J0 with (0 <= ?t)%Q => set (j := t) in * end.
  set (n := common_prefix _ _).
  pose proof (QofN_nonneg n) as N0.
  pose proof (QofN_le n 4 (common_prefix_le _ _)) as N4.
  replace (QofN 4) with 4%Q in N4 by reflexivity.
  assert (0 <= QofN n * p)%Q as C0 by (apply Qmult_le_0_compat; lra).
  assert (QofN n * p <= 4 * (1 # 4))%Q as C1.
  { apply (Qle_trans _ (4 * p)).
    - apply Qmult_le_compat_r; lra.
    - lra. }
  set (c := (QofN n * p)%Q) in *.
  assert (0 <= c * (1 - j))%Q by (apply Qmult_le_0_compat; lra).
  assert (c * (1 - j) <= 1 * (1 - j))%Q by (apply Qmult_le_compat_r; lra).
  split; lra.
Qed.

Lemma X1_prefix_boost_bounds_witness :
  (0 <= default_p <= 1 # 4)%Q
  /\ (jaroSimilarity "martha" "marhta" <= jaroWinkler "martha" "marhta" default_p)%Q
  /\ (jaroWinkler "martha" "marhta" default_p <= 1)%Q.
Proof.
  assert (H : (0 <= default_p <= 1 # 4)%Q)
    by (split; vm_compute; discriminate).
  split; [exact H|].
  exact (X1_prefix_boost_bounds "martha" "marhta" default_p H).
Defined.

(** ** Date of birth *)

Lemma same_day_sym (d1 d2 : LocalDate) : same_day d1 d2 = same_day d2 d1.
Proof.
  unfold same_day.
  by rewrite (Z.eqb_sym (getFullYear d1)), (Z.eqb_sym (getMonth d1)),
    (Z.eqb_sym (getDate d1)).
Qed.

(** X2. [matchDOB] does not depend on which of the two dates is the
    query's: swapping its arguments gives the same answer, on every host. *)
Theorem X2_matchDOB_symmetric (newDate : string -> option LocalDate)
    (searchDOB sdnDOB : option string) :
  matchDOB newDate searchDOB sdnDOB = matchDOB newDate sdnDOB searchDOB.
Proof.
  unfold matchDOB. rewrite (orb_comm (negb (truthy sdnDOB))).
  destruct (negb (truthy searchDOB) || negb (truthy sdnDOB)); [done|].
  destruct searchDOB as [a|], sdnDOB as [b|]; try done.
  rewrite (String.eqb_sym (digitsOnly b)).
  destruct (String.eqb (digitsOnly a) (digitsOnly b)); [done|].
  destruct (newDate a), (newDate b); try done. apply same_day_sym.
Qed.

(** X3. A date of birth that is not empty matches itself, whether or not
    the host can parse it: the digit comparison settles it first. *)
Theorem X3_matchDOB_reflexive (newDate : string -> option LocalDate)
    (dob : option string) (Hdob : truthy dob = true) :
  matchDOB newDate dob dob = true.
Proof.
  unfold matchDOB. rewrite Hdob. simpl.
  destruct dob as [a|]; [|discriminate]. by rewrite String.eqb_refl.
Qed.

Lemma X3_matchDOB_reflexive_witness :
  truthy (Some "circa 1960"%string) = true
  /\ referenceDate 0 "circa 1960" = None
  /\ matchDOB (referenceDate 0) (Some "circa 1960"%string)
       (Some "circa 1960"%string) = true.
Proof.
  split; [reflexivity|]. split; [reflexivity|].
  apply (X3_matchDOB_reflexive (referenceDate 0) (Some "circa 1960"%string)).
  reflexivity.
Defined.

(** ** Address and name scores *)

Lemma address_part_swap (wt : Q) (x y : option string) (acc acc' : Q * nat) :
  (fst acc == fst acc')%Q -> snd acc = snd acc' ->
  (fst (address_part wt x y acc) == fst (address_part wt y x acc'))%Q
  /\ snd (address_part wt x y acc) = snd (address_part wt y x acc').
Proof.
  intros Hf Hs. unfold address_part. rewrite (andb_comm (truthy y)).
  destruct (truthy x && truthy y); simpl; [|done].
  split; [|by rewrite Hs].
  rewrite Hf, (jaroWinkler_sym (normalizeName y) (normalizeName x)). reflexivity.
Qed.

(** X4. The address score does not depend on which of the two addresses
    is the query's. *)
Theorem X4_address_score_symmetric (a b : Address) :
  calculateAddressSimilarity a b = calculateAddressSimilarity b a.
Proof.
  unfold calculateAddressSimilarity.
  destruct (address_part_swap 40 (country a) (country b) (0%Q, 0) (0%Q, 0))
    as [F1 S1]; [reflexivity|reflexivity|].
  destruct (address_part_swap 20 (state a) (state b) _ _ F1 S1) as [F2 S2].
  destruct (address_part_swap 25 (city a) (city b) _ _ F2 S2) as [F3 S3].
  destruct (address_part_swap 15 (address a) (address b) _ _ F3 S3) as [F4 S4].
  rewrite S4. destruct (Nat.ltb 0 _); [|done]. by apply Math_round_comp.
Qed.

(** X5. An address compared with itself scores the sum of the weights of
    the parts it supplies: 40 for the country, 20 for the state, 25 for
    the city and 15 for the street; so 100 exactly when all four are
    there. *)
Theorem X5_address_score_identical (a : Address) :
  calculateAddressSimilarity a a
  = (part_weight 40 (country a) + part_weight 20 (state a)
     + part_weight 25 (city a) + part_weight 15 (address a))%Z.
Proof.
  unfold calculateAddressSimilarity, address_part, part_weight.
  destruct (truthy (country a)), (truthy (state a)), (truthy (city a)),
    (truthy (address a)); simpl; rewrite ?jaroWinkler_same;
    vm_compute; reflexivity.
Qed.

(** X6. A middle name that one side lacks never changes the name score:
    when the middle name of the query or of the candidate is empty after
    normalisation, the score is the one of the two names without their
    middle names. *)
Theorem X6_missing_middle_name_ignored (searchName sdnName : NameParts)
    (Hmiddle : nonempty (normalizeName (middleName searchName)) = false
               \/ nonempty (normalizeName (middleName sdnName)) = false) :
  calculateNameSimilarity searchName sdnName
  = calculateNameSimilarity (without_middle searchName) (without_middle sdnName).
Proof.
  unfold calculateNameSimilarity, without_middle. simpl.
  change (normalizeName None) with EmptyString.
  change (nonempty EmptyString) with false. simpl.
  destruct Hmiddle as [-> | ->]; simpl; [done|].
  by rewrite andb_false_r, orb_true_r.
Qed.

Lemma X6_missing_middle_name_ignored_witness :
  calculateNameSimilarity
    {| firstName := Some "John"%string; middleName := Some "Quincy"%string;
       lastName := Some "Smith"%string |}
    (name_of "Jon" "Smith")
  = calculateNameSimilarity (name_of "John" "Smith") (name_of "Jon" "Smith").
Proof.
  apply (X6_missing_middle_name_ignored
           {| firstName := Some "John"%string; middleName := Some "Quincy"%string;
              lastName := Some "Smith"%string |}
           (name_of "Jon" "Smith")).
  right. reflexivity.
Defined.

(** ** Identifiers and reasons *)

Lemma find_id_first (n : string) (l1 l2 : list Identifier) (id : Identifier) :
  id_digits id = n ->
  (forall x, In x l1 -> id_digits x <> n) ->
  find_id n (l1 ++ id :: l2) = Some id.
Proof.
  intros Hid. induction l1 as [|x l1 IH]; intros Hno; simpl.
  - fold (id_digits id). rewrite Hid, String.eqb_refl. done.
  - fold (id_digits x).
    destruct (String.eqb_spec n (id_digits x)) as [->|_].
    + exfalso. by apply (Hno x); [left|].
    + apply IH. intros y Hy. apply Hno. by right.
Qed.

Lemma find_id_none (n : string) (l : list Identifier) :
  find_id n l = None <-> forall x, In x l -> id_digits x <> n.
Proof.
  induction l as [|x l IH]; simpl; [split; [intros _ ? []|done]|].
  fold (id_digits x). destruct (String.eqb_spec n (id_digits x)) as [->|Hne].
  - split; [discriminate|]. intros H. exfalso. by apply (H x); [left|].
  - rewrite IH. split.
    + intros H y [<-|Hy]; [congruence | by apply H].
    + intros H y Hy. apply H. by right.
Qed.

Lemma find_id_some (n : string) (l : list Identifier) (id : Identifier) :
  find_id n l = Some id -> In id l /\ id_digits id = n.
Proof.
  induction l as [|x l IH]; simpl; [discriminate|].
  fold (id_digits x). destruct (String.eqb_spec n (id_digits x)) as [->|_].
  - intros [= ->]. split; [by left|done].
  - intros H. destruct (IH H). split; [by right|done].
Qed.

(** X7. For a query with an identifier, the identifier flag is set
    exactly when some identifier of the candidate has the same digits,
    and the reasons then end with the one that names the type of the
    first such identifier in storage order, after the date-of-birth
    reason if there is one; without a match the reasons hold at most the
    date-of-birth reason. *)
Theorem X7_identifier_reason (newDate : string -> option LocalDate)
    (q : SearchParams) (e : SdnEntry) (n : string) (l : list Identifier)
    (Hq : sp_idNumber q = Some n) (Hn : nonempty n = true)
    (He : ids e = Some l) :
  let r := calculateMatchScore newDate q e in
  let dob_reason :=
    if dobMatch r then ["Date of birth matches"%string] else [] in
  (idMatch r = true <-> exists id, In id l /\ id_digits id = digitsOnly n)
  /\ (forall l1 id l2,
        l = l1 ++ id :: l2 -> id_digits id = digitsOnly n ->
        (forall x, In x l1 -> id_digits x <> digitsOnly n) ->
        details r
        = dob_reason
          ++ [String.append "ID number matches ("
                (String.append (id_type id) ")")])
  /\ (idMatch r = false -> details r = dob_reason).
Proof.
  intros r dob_reason. subst r dob_reason.
  unfold calculateMatchScore. simpl. rewrite Hq, He, Hn.
  split; [|split].
  - destruct (find_id (digitsOnly n) l) as [id|] eqn:E.
    + split; [intros _|done]. apply find_id_some in E as [Hin Hd]. eauto.
    + split; [discriminate|]. intros (id & Hin & Hd).
      exfalso. by apply (proj1 (find_id_none _ _) E id).
  - intros l1 id l2 -> Hd Hno. by rewrite (find_id_first _ _ _ _ Hd Hno).
  - by destruct (find_id (digitsOnly n) l).
Qed.

Lemma X7_identifier_reason_witness :
  let q := {| sp_firstName := Some "John"%string; sp_middleName := None;
              sp_lastName := Some "Smith"%string; sp_dob := None;
              sp_address := None; sp_city := None; sp_state := None;
              sp_country := None; sp_idNumber := Some "AB-123 456"%string |} in
  let l := [ {| id_type := "Passport"%string; id_number := Some "999"%string |};
             {| id_type := "Tax"%string; id_number := Some "123456"%string |};
             {| id_type := "Other"%string; id_number := Some "12-34-56"%string |} ] in
  let e := {| uid := "7"%string; e_firstName := Some "John"%string;
              e_middleName := None; e_lastName := Some "Smith"%string;
              e_dob := None; e_address := None; e_city := None;
              e_state := None; e_country := None; ids := Some l |} in
  details (calculateMatchScore (referenceDate 0) q e)
  = ["ID number matches (Tax)"%string].
Proof.
  intros q l e.
  apply (proj1 (proj2 (X7_identifier_reason (referenceDate 0) q e
                         "AB-123 456"%string l eq_refl eq_refl eq_refl))
           [ {| id_type := "Passport"%string; id_number := Some "999"%string |} ]
           {| id_type := "Tax"%string; id_number := Some "123456"%string |}
           [ {| id_type := "Other"%string; id_number := Some "12-34-56"%string |} ]
           eq_refl eq_refl).
  intros x [<-|[]]. vm_compute. discriminate.
Defined.

(** ** The overall score in integers *)

(** The overall score is [min(100, floor((12 * name + 3 * address
    + 400 * dob + 100 * id + 10) / 20))]. *)
Lemma overall_score_int (newDate : string -> option LocalDate)
    (q : SearchParams) (e : SdnEntry) :
  let r := calculateMatchScore newDate q e in
  score r
  = Z.min 100
      ((12 * nameScore r + 3 * addressScore r
        + (if dobMatch r then 400 else 0) + (if idMatch r then 100 else 0)
        + 10) / 20)%Z.
Proof.
  intros r. pose proof (overall_score_spec newDate q e) as Hs.
  cbv zeta in Hs. fold r in Hs. rewrite Hs. clear Hs.
  unfold spec_overall_score. rewrite <- round_min_100. f_equal.
  unfold Math_round.
  set (k := (12 * nameScore r + 3 * addressScore r
             + (if dobMatch r then 400 else 0) + (if idMatch r then 100 else 0)
             + 10)%Z).
  transitivity (Qfloor (k # 20)); [|reflexivity].
  apply Qfloor_comp. subst k.
  generalize (nameScore r), (addressScore r). intros n a.
  destruct (dobMatch r), (idMatch r); unfold Qeq; simpl; lia.
Qed.

Lemma score_parts_range (newDate : string -> option LocalDate)
    (q : SearchParams) (e : SdnEntry) :
  let r := calculateMatchScore newDate q e in
  (0 <= nameScore r <= 100)%Z /\ (0 <= addressScore r <= 100)%Z.
Proof.
  intros r. split; [apply calculateNameSimilarity_range|].
  subst r. unfold calculateMatchScore; simpl.
  destruct (_ || _); [apply calculateAddressSimilarity_range | lia].
Qed.

Lemma reaches_85 (h : SearchHit) :
  reaches default_threshold h = true <-> (85 <= hit_score h)%Z.
Proof.
  unfold reaches, default_threshold. rewrite Qle_bool_iff.
  change 85%Q with (inject_Z 85). by rewrite <- Zle_Qle.
Qed.

(** A score of 85 or more, in terms of its parts. *)
Lemma score_85_parts (newDate : string -> option LocalDate)
    (q : SearchParams) (e : SdnEntry) :
  let r := calculateMatchScore newDate q e in
  (85 <= score r)%Z ->
  (1690 <= 12 * nameScore r + 3 * addressScore r
           + (if dobMatch r then 400 else 0)
           + (if idMatch r then 100 else 0))%Z.
Proof.
  intros r Ht. pose proof (overall_score_int newDate q e) as Hs.
  cbv zeta in Hs. fold r in Hs. rewrite Hs in Ht. clear Hs.
  set (k := (12 * nameScore r + 3 * addressScore r
             + (if dobMatch r then 400 else 0)
             + (if idMatch r then 100 else 0))%Z) in *.
  assert (85 <= (k + 10) / 20)%Z as Hk by lia.
  pose proof (Z.mul_div_le (k + 10) 20 ltac:(lia)). lia.
Qed.

Lemma searchSDN_default_In (newDate : string -> option LocalDate)
    (q : SearchParams) (es : list SdnEntry) (h : SearchHit) :
  In h (searchSDN newDate q es default_threshold) ->
  exists e, In e es /\ h = scored newDate q e
            /\ (85 <= score (calculateMatchScore newDate q e))%Z.
Proof.
  intros Hh. apply searchSDN_In in Hh as [(e & He & ->) Ht].
  exists e. split; [done|]. split; [done|].
  apply Qle_bool_iff in Ht.
  by apply (reaches_85 (scored newDate q e)) in Ht.
Qed.

(** ** What a hit at the default threshold needs *)

(** X8. Every hit that [searchSDN] returns at the default threshold 85
    (the one the popup passes) has a matching date of birth, a name
    score of at least 75, and either a matching identifier or an address
    score of at least 30: the name alone gives at most 60 points, and the
    name with address and identifier at most 80. *)
Theorem X8_default_threshold_needs (newDate : string -> option LocalDate)
    (q : SearchParams) (es : list SdnEntry) :
  Forall (fun h =>
            dobMatch (result h) = true
            /\ (75 <= nameScore (result h))%Z
            /\ (idMatch (result h) = true \/ (30 <= addressScore (result h))%Z))
    (searchSDN newDate q es default_threshold).
Proof.
  apply List.Forall_forall. intros h Hh.
  apply searchSDN_default_In in Hh as (e & _ & -> & Ht).
  apply score_85_parts in Ht.
  pose proof (score_parts_range newDate q e) as [Hn Ha].
  cbv zeta in Ht, Hn, Ha. unfold scored. cbn [result].
  set (r := calculateMatchScore newDate q e) in *.
  destruct (dobMatch r), (idMatch r);
    repeat split; try done; try lia; try (left; done); try (right; lia).
Qed.

(** X9. A query without a date of birth, or without any of country, city,
    state and identifier, gets no hit at the default threshold, whatever
    the watch list holds. *)
Theorem X9_name_only_never_hits (newDate : string -> option LocalDate)
    (q : SearchParams) (es : list SdnEntry)
    (Hq : truthy (sp_dob q) = false
          \/ (truthy (sp_country q) = false /\ truthy (sp_city q) = false
              /\ truthy (sp_state q) = false /\ truthy (sp_idNumber q) = false)) :
  searchSDN newDate q es default_threshold = [].
Proof.
  destruct (searchSDN newDate q es default_threshold) as [|h l] eqn:E; [done|].
  exfalso.
  assert (Hin : In h (searchSDN newDate q es default_threshold))
    by (rewrite E; by left).
  apply searchSDN_default_In in Hin as (e & _ & _ & Ht).
  apply score_85_parts in Ht.
  pose proof (score_parts_range newDate q e) as [Hn Ha].
  cbv zeta in Ht, Hn, Ha.
  assert (Hflags : dobMatch (calculateMatchScore newDate q e) = false
                   \/ (addressScore (calculateMatchScore newDate q e) = 0%Z
                       /\ idMatch (calculateMatchScore newDate q e) = false)).
  { unfold calculateMatchScore; simpl.
    destruct Hq as [-> | (-> & -> & -> & Hid)]; [by left|right].
    split; [done|]. unfold truthy in Hid.
    destruct (sp_idNumber q) as [n|]; [|done].
    fold (nonempty n) in Hid. rewrite Hid. by destruct (ids e). }
  set (r := calculateMatchScore newDate q e) in *.
  destruct Hflags as [Hd | [Hz Hi]].
  - rewrite Hd in *. destruct (idMatch r); lia.
  - rewrite Hz, Hi in *. destruct (dobMatch r); lia.
Qed.

Lemma X9_name_only_never_hits_witness :
  (truthy (sp_dob sample_query) = false
   \/ (truthy (sp_country sample_query) = false
       /\ truthy (sp_city sample_query) = false
       /\ truthy (sp_state sample_query) = false
       /\ truthy (sp_idNumber sample_query) = false))
  /\ searchSDN (referenceDate 0) sample_query sample_entries default_threshold = [].
Proof.
  assert (H : truthy (sp_dob sample_query) = false
              \/ (truthy (sp_country sample_query) = false
                  /\ truthy (sp_city sample_query) = false
                  /\ truthy (sp_state sample_query) = false
                  /\ truthy (sp_idNumber sample_query) = false))
    by (right; repeat split).
  split; [exact H|].
  exact (X9_name_only_never_hits (referenceDate 0) sample_query sample_entries H).
Defined.

(** ** The search as a whole *)

(** X10. [searchSDN] neither loses nor repeats a candidate: its result is
    a rearrangement of the scored candidates that reach the threshold,
    each as often as it occurs in the input; so every candidate that
    reaches the threshold is returned, and there are never more hits
    than candidates. *)
Theorem X10_search_complete (newDate : string -> option LocalDate)
    (q : SearchParams) (es : list SdnEntry) (t : Q) :
  Permutation (searchSDN newDate q es t)
    (List.filter (reaches t) (map (scored newDate q) es))
  /\ (forall e, In e es ->
        (t <= inject_Z (score (calculateMatchScore newDate q e)))%Q ->
        In (scored newDate q e) (searchSDN newDate q es t))
  /\ length (searchSDN newDate q es t) <= length es.
Proof.
  assert (HP : Permutation (searchSDN newDate q es t)
                 (List.filter (reaches t) (map (scored newDate q) es))).
  { unfold searchSDN. rewrite <- collect_filter. symmetry. apply array_sort_perm. }
  split; [done|]. split.
  - intros e He Ht. apply searchSDN_In. split; [eauto|done].
  - rewrite (Permutation_length HP).
    etransitivity; [apply List.filter_length_le|]. by rewrite length_map.
Qed.

Lemma X10_search_complete_witness :
  In jon_smith sample_entries
  /\ In (scored (referenceDate 0) sample_query jon_smith)
       (searchSDN (referenceDate 0) sample_query sample_entries 50).
Proof.
  assert (H : In jon_smith sample_entries) by (simpl; auto).
  split; [exact H|].
  apply (proj1 (proj2 (X10_search_complete (referenceDate 0) sample_query
                         sample_entries 50)) jon_smith H).
  vm_compute; discriminate.
Defined.

Lemma insert_sorted_filter (P : SearchHit -> bool) (x : SearchHit)
    (l : list SearchHit) :
  (forall a b, (hit_score a <= hit_score b)%Z -> P a = true -> P b = true) ->
  StronglySorted score_desc l ->
  List.filter P (insert_sorted by_score_desc x l)
  = if P x then insert_sorted by_score_desc x (List.filter P l)
    else List.filter P l.
Proof.
  intros Hup. induction 1 as [|y l Hs IH Hy]; simpl.
  - by destruct (P x).
  - destruct (Z.ltb_spec (by_score_desc y x) 0) as [Hlt|Hge]; simpl.
    + rewrite IH. destruct (P y) eqn:Py, (P x) eqn:Px; simpl; try done.
      by rewrite (proj2 (Z.ltb_lt _ _) Hlt).
    + destruct (P x) eqn:Px; [|done].
      destruct (P y) eqn:Py; simpl.
      * by rewrite (proj2 (Z.ltb_ge _ _) Hge).
      * assert (Hnone : List.filter P l = []).
        { clear IH. induction l as [|z l IHl]; simpl; [done|].
          inversion Hy as [|? ? Hz Hl]; subst. inversion Hs; subst.
          destruct (P z) eqn:Pz.
          - rewrite (Hup z y) in Py; [done | | done].
            unfold score_desc in Hz. lia.
          - by apply IHl. }
        by rewrite Hnone.
Qed.

Lemma array_sort_filter (P : SearchHit -> bool) (l : list SearchHit) :
  (forall a b, (hit_score a <= hit_score b)%Z -> P a = true -> P b = true) ->
  List.filter P (array_sort by_score_desc l)
  = array_sort by_score_desc (List.filter P l).
Proof.
  intros Hup. induction l as [|x l IH]; simpl; [done|].
  rewrite insert_sorted_filter; [|done|apply array_sort_desc].
  rewrite IH. by destruct (P x).
Qed.

Lemma reaches_up (t : Q) (a b : SearchHit) :
  (hit_score a <= hit_score b)%Z -> reaches t a = true -> reaches t b = true.
Proof.
  unfold reaches. rewrite !Qle_bool_iff. intros Hab Ha.
  apply (Qle_trans _ _ _ Ha). by rewrite <- Zle_Qle.
Qed.

(** X11. Raising the threshold only filters the result: for thresholds
    [t1 <= t2], the result at [t2] is the result at [t1] with the hits
    below [t2] removed and nothing reordered. *)
Theorem X11_raise_threshold_filters (newDate : string -> option LocalDate)
    (q : SearchParams) (es : list SdnEntry) (t1 t2 : Q)
    (Ht : (t1 <= t2)%Q) :
  searchSDN newDate q es t2
  = List.filter (reaches t2) (searchSDN newDate q es t1).
Proof.
  unfold searchSDN. rewrite array_sort_filter by apply reaches_up.
  f_equal. rewrite !collect_filter.
  induction (map (scored newDate q) es) as [|h l IH]; simpl; [done|].
  destruct (reaches t2 h) eqn:H2.
  - assert (reaches t1 h = true) as ->.
    { unfold reaches in *. rewrite Qle_bool_iff in *. lra. }
    simpl. by rewrite H2, IH.
  - destruct (reaches t1 h); simpl; by rewrite ?H2, IH.
Qed.

Lemma X11_raise_threshold_filters_witness :
  (50 <= 78)%Q
  /\ searchSDN (referenceDate 0) sample_query sample_entries 78
     = List.filter (reaches 78)
         (searchSDN (referenceDate 0) sample_query sample_entries 50).
Proof.
  assert (H : (50 <= 78)%Q) by (vm_compute; discriminate).
  split; [exact H|].
  exact (X11_raise_threshold_filters (referenceDate 0) sample_query
           sample_entries 50 78 H).
Defined.

(** X12. The threshold at its ends: a threshold of 0 or less keeps every
    candidate, and a threshold above 100 keeps none. *)
Theorem X12_threshold_extremes (newDate : string -> option LocalDate)
    (q : SearchParams) (es : list SdnEntry) (t : Q) :
  ((t <= 0)%Q ->
   Permutation (searchSDN newDate q es t) (map (scored newDate q) es))
  /\ ((100 < t)%Q -> searchSDN newDate q es t = []).
Proof.
  assert (Hrange : forall e,
             (0 <= hit_score (scored newDate q e) <= 100)%Z).
  { intros e. unfold hit_score, scored. cbn [result].
    pose proof (overall_score_int newDate q e) as Hs.
    pose proof (score_parts_range newDate q e) as [Hn Ha].
    cbv zeta in Hs, Hn, Ha. rewrite Hs.
    set (r := calculateMatchScore newDate q e) in *.
    split; [|lia]. apply Z.min_glb; [lia|].
    apply Z.div_pos; [|lia]. destruct (dobMatch r), (idMatch r); lia. }
  split; intros Ht.
  - unfold searchSDN. rewrite <- array_sort_perm, collect_filter.
    induction es as [|e es IH]; simpl; [done|].
    assert (reaches t (scored newDate q e) = true) as ->.
    { unfold reaches. rewrite Qle_bool_iff.
      apply (Qle_trans _ 0); [done|].
      change 0%Q with (inject_Z 0). rewrite <- Zle_Qle. apply Hrange. }
    by apply perm_skip.
  - unfold searchSDN. rewrite collect_filter.
    induction es as [|e es IH]; simpl; [done|].
    assert (reaches t (scored newDate q e) = false) as ->; [|done].
    unfold reaches. destruct (Qle_bool _ _) eqn:E; [|done].
    apply Qle_bool_iff in E. exfalso.
    assert (inject_Z (hit_score (scored newDate q e)) <= inject_Z 100)%Q
      by (rewrite <- Zle_Qle; apply Hrange).
    change (inject_Z 100) with 100%Q in *. lra.
Qed.

Lemma X12_threshold_extremes_witness :
  length (searchSDN (referenceDate 0) sample_query sample_entries 0) = 2
  /\ searchSDN (referenceDate 0) sample_query sample_entries (201 # 2) = [].
Proof.
  pose proof (X12_threshold_extremes (referenceDate 0) sample_query
                sample_entries) as H.
  split.
  - rewrite (Permutation_length
               (proj1 (H 0%Q) ltac:(vm_compute; discriminate))).
    reflexivity.
  - apply (proj2 (H (201 # 2)%Q)). reflexivity.
Defined.

(** ** Name normalisation *)

Lemma word_char_facts (c : ascii) :
  is_word_char c = true ->
  is_space c = false /\ Ascii.eqb c space = false /\ lower_char c = c.
Proof.
  destruct c as [[] [] [] [] [] [] [] []]; vm_compute; intros H;
    try discriminate; repeat split.
Qed.

Lemma space_facts :
  is_space space = true /\ lower_char space = space
  /\ is_word_char space = false.
Proof. vm_compute. repeat split. Qed.

Lemma is_space_not_word (c : ascii) :
  is_space c = true -> is_word_char c = false.
Proof.
  destruct (is_word_char c) eqn:E; [|done].
  apply word_char_facts in E as [-> _]. done.
Qed.

Lemma collapse_single_spaced (l : list ascii) :
  forall b, single_spaced b (collapse_spaces b (replace_other (toLowerCase l))) = true.
Proof.
  induction l as [|c l IH]; intros b; simpl; [done|].
  set (d := lower_char c).
  destruct (is_lower_az d || is_digit d || is_space d) eqn:E.
  - destruct (is_space d) eqn:Es.
    + destruct b; simpl; [apply IH|].
      rewrite ?Ascii.eqb_refl. simpl. apply IH.
    + simpl. rewrite orb_false_r in E. fold (is_word_char d) in E.
      destruct (word_char_facts d E) as (_ & -> & _). rewrite E. apply IH.
  - destruct space_facts as (-> & _ & _).
    destruct b; simpl; [apply IH|]. rewrite ?Ascii.eqb_refl. simpl. apply IH.
Qed.

Lemma drop_spaces_single_spaced (l : list ascii) (b : bool) :
  single_spaced b l = true -> single_spaced true (drop_spaces l) = true.
Proof.
  revert b. induction l as [|c l IH]; intros b; simpl; [done|].
  destruct (Ascii.eqb_spec c space) as [->|Hne].
  - destruct space_facts as (-> & _ & _). intros H.
    apply andb_true_iff in H as [_ H]. by apply (IH true).
  - intros H. apply andb_true_iff in H as [Hw H].
    destruct (word_char_facts c Hw) as (-> & Hs & _). simpl.
    rewrite Hs, Hw. done.
Qed.

Lemma drop_spaces_app (a b : list ascii) :
  drop_spaces (a ++ b)
  = match drop_spaces a with
    | [] => drop_spaces b
    | r => r ++ b
    end.
Proof.
  induction a as [|c a IH]; simpl; [done|].
  destruct (is_space c); [apply IH | done].
Qed.

Lemma strip_end_cons (c : ascii) (l : list ascii) :
  strip_end (c :: l)
  = match strip_end l with
    | [] => if is_space c then [] else [c]
    | r => c :: r
    end.
Proof.
  unfold strip_end. simpl. rewrite drop_spaces_app.
  destruct (drop_spaces (rev l)) as [|d r] eqn:E; simpl.
  - by destruct (is_space c).
  - rewrite rev_app_distr. simpl.
    destruct (rev r ++ [d]) eqn:E'; [by destruct (rev r)|done].
Qed.

Lemma strip_end_canonical (l : list ascii) :
  forall b, single_spaced b l = true ->
    match strip_end l with
    | [] => True
    | r => canonical_from b r = true
    end.
Proof.
  induction l as [|c l IH]; intros b H; [done|].
  rewrite strip_end_cons. simpl in H.
  destruct (Ascii.eqb_spec c space) as [->|Hne].
  - apply andb_true_iff in H as [Hb H]. specialize (IH true H).
    destruct space_facts as (Hsp & _ & _). rewrite Hsp.
    destruct (strip_end l) as [|d r]; [done|].
    simpl. rewrite ?Ascii.eqb_refl, Hb. exact IH.
  - apply andb_true_iff in H as [Hw H]. specialize (IH false H).
    destruct (word_char_facts c Hw) as (Hs & He & _). rewrite Hs.
    destruct (strip_end l) as [|d r]; simpl; rewrite He, Hw; [done|exact IH].
Qed.

Lemma canonical_from_fixed (l : list ascii) :
  forall b, canonical_from b l = true ->
    toLowerCase l = l /\ replace_other l = l
    /\ (forall p, (p = true -> b = true) -> collapse_spaces p l = l)
    /\ strip_end l = l
    /\ (b = true -> drop_spaces l = l).
Proof.
  induction l as [|c l IH]; intros b H; simpl in H.
  - repeat split; done.
  - destruct (Ascii.eqb_spec c space) as [->|Hne].
    + apply andb_true_iff in H as [Hb H]. apply negb_true_iff in Hb. subst b.
      destruct (IH true H) as (L & R & C & S & D).
      destruct space_facts as (Hsp & Hlow & Hw).
      repeat split.
      * simpl. by rewrite Hlow, L.
      * simpl. rewrite ?Hsp, ?orb_true_r. by rewrite R.
      * intros p Hp. simpl. rewrite ?Hsp.
        destruct p; [by discriminate Hp|]. by rewrite C.
      * rewrite strip_end_cons, S. destruct l; [done|done].
      * done.
    + apply andb_true_iff in H as [Hw H].
      destruct (IH false H) as (L & R & C & S & D).
      destruct (word_char_facts c Hw) as (Hs & He & Hlow).
      repeat split.
      * simpl. by rewrite Hlow, L.
      * simpl. unfold is_word_char in Hw. rewrite Hw. simpl. by rewrite R.
      * intros p Hp. simpl. rewrite Hs. by rewrite C.
      * rewrite strip_end_cons, S, Hs. by destruct l.
      * intros _. simpl. by rewrite Hs.
Qed.

Lemma normalizeName_chars (s : string) :
  nonempty s = true ->
  chars (normalizeName (Some s))
  = strip_end (drop_spaces
      (collapse_spaces false (replace_other (toLowerCase (chars s))))).
Proof.
  intros H. unfold normalizeName, truthy. fold (nonempty s). rewrite H. simpl.
  unfold chars at 1. by rewrite list_ascii_of_string_of_list_ascii.
Qed.

(** X13. Whatever it is given, [normalizeName] returns a canonical name
    (the empty string, or words of lower-case letters and digits
    separated by single spaces, with no space at either end), and it is
    idempotent: normalising a normalised name changes nothing. *)
Theorem X13_normalizeName_canonical (name : option string) :
  canonical (normalizeName name) = true
  /\ normalizeName (Some (normalizeName name)) = normalizeName name.
Proof.
  assert (Hc : canonical (normalizeName name) = true).
  { destruct name as [s|]; [|done].
    destruct (nonempty s) eqn:E.
    - unfold canonical. rewrite (normalizeName_chars s E).
      pose proof (collapse_single_spaced (chars s) false) as H1.
      apply drop_spaces_single_spaced in H1.
      apply strip_end_canonical in H1.
      by destruct (strip_end _).
    - unfold normalizeName, truthy. fold (nonempty s). by rewrite E. }
  split; [done|].
  set (s := normalizeName name) in *.
  unfold canonical in Hc.
  destruct (chars s) as [|c l] eqn:El.
  - assert (s = EmptyString) as -> by (apply chars_inj; by rewrite El).
    done.
  - assert (Hne : nonempty s = true).
    { apply nonempty_chars. by rewrite El. }
    apply chars_inj. rewrite (normalizeName_chars s Hne), El.
    destruct (canonical_from_fixed _ _ Hc) as (L & R & C & S & D).
    rewrite L, R, (C false) by done. rewrite D by done. exact S.
Qed.

(** ** Similarity 0 and similarity 1 *)

Lemma count_true_pos (flags : list bool) :
  0 < count_true flags -> exists i, flags !! i = Some true.
Proof.
  induction flags as [|[|] flags IH]; simpl; [lia| |].
  - intros _. by exists 0.
  - intros H. destruct (IH H) as [i Hi]. by exists (S i).
Qed.

(** A match pairs two positions that hold the same character, within a
    window that is not negative. *)
Lemma matches_pos_candidate (str1 str2 : list ascii) :
  0 < matches (find_matches str1 str2) ->
  exists i j,
    candidate str1 str2 (matchDistance (length str1) (length str2)) i j.
Proof.
  intros Hm.
  destruct (find_matches_greedy str1 str2)
    as (M & G & G' & F1 & F2 & L1 & L2 & C1 & C2).
  rewrite C1 in Hm. apply count_true_pos in Hm as [i Hi].
  destruct (proj1 (F1 i) Hi) as [j Hj].
  exists i, j. by apply (greedy_cand _ _ G).
Qed.

Lemma QofN_0 : QofN 0 = 0%Q.
Proof. reflexivity. Qed.

(** X14. Two strings with no character in common after lower-casing, one
    of them at least not empty, have Jaro similarity 0 and Jaro-Winkler
    similarity 0: the engine gives no credit without a shared character. *)
Theorem X14_disjoint_strings_score_zero (s1 s2 : string) (p : Q)
    (Hne : nonempty s1 = true)
    (Hdisjoint : forall c, In c (toLowerCase (chars s1)) ->
                           ~ In c (toLowerCase (chars s2))) :
  (jaroSimilarity s1 s2 == 0)%Q /\ (jaroWinkler s1 s2 p == 0)%Q.
Proof.
  set (str1 := toLowerCase (chars s1)) in *.
  set (str2 := toLowerCase (chars s2)) in *.
  assert (Hc1 : exists c l, str1 = c :: l).
  { apply nonempty_chars in Hne. subst str1.
    destruct (chars s1) as [|c l]; [done|]. simpl. eauto. }
  destruct Hc1 as (c1 & l1 & E1).
  assert (Hneq : String.eqb s1 s2 = false).
  { apply String.eqb_neq. intros ->. apply (Hdisjoint c1); subst str1 str2;
      rewrite E1; by left. }
  assert (Hj : (jaroSimilarity s1 s2 == 0)%Q).
  { unfold jaroSimilarity. rewrite Hneq, Hne. simpl.
    destruct (nonempty s2); simpl; [|reflexivity].
    fold str1 str2.
    destruct (Nat.eqb_spec (matches (find_matches str1 str2)) 0) as [|Hm];
      [reflexivity|].
    exfalso. destruct (matches_pos_candidate str1 str2) as (i & j & Hc); [lia|].
    destruct Hc as [(c & H1 & H2) _].
    apply (Hdisjoint c).
    - apply list_elem_of_In. by eapply list_elem_of_lookup_2.
    - apply list_elem_of_In. by eapply list_elem_of_lookup_2. }
  split; [done|].
  unfold jaroWinkler. rewrite Hneq, Hne. simpl.
  destruct (nonempty s2) eqn:Hne2; simpl; [|reflexivity].
  rewrite Hj. fold str1 str2.
  assert (common_prefix str1 str2 = 0) as ->.
  { unfold common_prefix. rewrite E1.
    destruct str2 as [|c2 l2] eqn:E2.
    - reflexivity.
    - simpl. destruct (Ascii.eqb_spec c1 c2) as [->|]; [|done].
      exfalso. apply (Hdisjoint c2); [rewrite E1|]; by left. }
  rewrite QofN_0. ring.
Qed.

Lemma X14_disjoint_strings_score_zero_witness :
  (jaroSimilarity "smith" "ABDUL" == 0)%Q
  /\ (jaroWinkler "smith" "ABDUL" default_p == 0)%Q.
Proof.
  apply (X14_disjoint_strings_score_zero "smith" "ABDUL" default_p).
  - reflexivity.
  - vm_compute. intros c H.
    repeat (destruct H as [<-|H];
            [intros H'; repeat (destruct H' as [H'|H']; [discriminate H'|]);
             exact H'|]).
    destruct H.
Defined.









(** * The popup and the watch-list file *)

(** ** Attribute escaping *)

Lemma replace_char_gone (c : ascii) (by_text l : list ascii) :
  ~ In c by_text -> ~ In c (replace_char c by_text l).
Proof.
  intros Hby. unfold replace_char. rewrite in_flat_map.
  intros (x & _ & Hx). destruct (Ascii.eqb x c) eqn:E; [done|].
  destruct Hx as [->|[]]. by rewrite Ascii.eqb_refl in E.
Qed.

Lemma replace_char_keeps_out (d c : ascii) (by_text l : list ascii) :
  ~ In d by_text -> ~ In d l -> ~ In d (replace_char c by_text l).
Proof.
  intros Hby Hl. unfold replace_char. rewrite in_flat_map.
  intros (x & Hx & Hd). destruct (Ascii.eqb x c); [done|].
  destruct Hd as [->|[]]. done.
Qed.

Lemma replace_char_absent (c : ascii) (by_text l : list ascii) :
  ~ In c l -> replace_char c by_text l = l.
Proof.
  induction l as [|x l IH]; simpl; [done|]. intros H.
  destruct (Ascii.eqb_spec x c) as [->|_]; [exfalso; apply H; by left|].
  simpl. rewrite IH; [done|]. intros Hc. apply H. by right.
Qed.

(** X16. What [escapeAttr] returns holds neither an apostrophe nor a
    double quote, so it cannot end a quoted attribute value early; a text
    without these two characters is returned unchanged. *)
Theorem X16_escapeAttr_no_quotes (text : string) :
  ~ In apostrophe (chars (escapeAttr text))
  /\ ~ In dquote (chars (escapeAttr text))
  /\ (~ In apostrophe (chars text) -> ~ In dquote (chars text) ->
      escapeAttr text = text).
Proof.
  assert (E : chars (escapeAttr text)
              = replace_char dquote (chars "&quot;")
                  (replace_char apostrophe (chars "&#39;") (chars text)))
    by apply list_ascii_of_string_of_list_ascii.
  rewrite E. split; [|split].
  - apply replace_char_keeps_out.
    + vm_compute. intuition discriminate.
    + apply replace_char_gone. vm_compute. intuition discriminate.
  - apply replace_char_gone. vm_compute. intuition discriminate.
  - intros Ha Hd. unfold escapeAttr.
    rewrite (replace_char_absent apostrophe) by done.
    rewrite (replace_char_absent dquote) by done.
    apply string_of_list_ascii_of_string.
Qed.

Lemma X16_escapeAttr_no_quotes_witness :
  escapeAttr "Al Qaida"%string = "Al Qaida"%string.
Proof.
  apply (proj2 (proj2 (X16_escapeAttr_no_quotes "Al Qaida"%string)));
    vm_compute; intuition discriminate.
Defined.

(** ** CSV lines *)

Lemma csv_loop_plain (l : list ascii) :
  ~ In dquote l ->
  forall fields current,
    let st := csv_loop l {| csv_fields := fields; csv_current := current;
                            csv_inQuotes := false |} in
    push_field (csv_current st) (csv_fields st)
    = fields ++ map trimmed (split_char comma current l).
Proof.
  induction l as [|c l IH]; intros Hq fields current; simpl.
  - reflexivity.
  - destruct (Ascii.eqb_spec c dquote) as [->|_]; [exfalso; apply Hq; by left|].
    assert (Hl : ~ In dquote l) by (intros H; apply Hq; by right).
    destruct (Ascii.eqb c comma); simpl.
    + rewrite (IH Hl). unfold push_field. by rewrite <- app_assoc.
    + apply (IH Hl).
Qed.

Lemma split_char_length (l : list ascii) :
  forall current,
    length (split_char comma current l)
    = S (length (List.filter (fun c => Ascii.eqb c comma) l)).
Proof.
  induction l as [|c l IH]; intros current; [done|].
  cbn [split_char List.filter].
  destruct (Ascii.eqb c comma); cbn [length]; by rewrite IH.
Qed.

(** X17. On a line without a double quote [parseCSVLine] returns the
    pieces between the commas, each trimmed: one field more than the
    line has commas, and a single empty field for the empty line. *)
Theorem X17_parseCSVLine_unquoted (line : string)
    (Hline : ~ In dquote (chars line)) :
  parseCSVLine line = map trimmed (split_char comma [] (chars line))
  /\ length (parseCSVLine line)
     = S (length (List.filter (fun c => Ascii.eqb c comma) (chars line))).
Proof.
  assert (H : parseCSVLine line = map trimmed (split_char comma [] (chars line))).
  { unfold parseCSVLine. by rewrite (csv_loop_plain _ Hline). }
  split; [done|]. by rewrite H, length_map, split_char_length.
Qed.

Lemma X17_parseCSVLine_unquoted_witness :
  parseCSVLine "NK-1 , Person,KIM, Jong"
  = ["NK-1"%string; "Person"%string; "KIM"%string; "Jong"%string].
Proof.
  rewrite (proj1 (X17_parseCSVLine_unquoted "NK-1 , Person,KIM, Jong"
                    ltac:(vm_compute; intuition discriminate))).
  reflexivity.
Defined.

Lemma csv_loop_in_quotes (field : list ascii) :
  forall rest fields current,
    hd_error rest <> Some dquote ->
    csv_loop (replace_char dquote [dquote; dquote] field ++ dquote :: rest)
      {| csv_fields := fields; csv_current := current; csv_inQuotes := true |}
    = csv_loop rest
        {| csv_fields := fields; csv_current := current ++ field;
           csv_inQuotes := false |}.
Proof.
  induction field as [|x field IH]; intros rest fields current Hrest.
  - simpl. rewrite app_nil_r.
    change (Ascii.eqb dquote dquote) with true. cbv iota.
    destruct rest as [|d rest']; [done|].
    destruct (Ascii.eqb_spec d dquote) as [->|_]; [done|]. done.
  - simpl. destruct (Ascii.eqb_spec x dquote) as [->|Hne].
    + simpl. change (Ascii.eqb dquote dquote) with true. cbv iota.
      simpl. rewrite (IH rest fields (current ++ [dquote]) Hrest).
      by rewrite <- app_assoc.
    + simpl. rewrite (proj2 (Ascii.eqb_neq x dquote) Hne).
      rewrite andb_false_r.
      rewrite (IH rest fields (current ++ [x]) Hrest).
      by rewrite <- app_assoc.
Qed.

Lemma csv_loop_quoted_field (field rest : list ascii) (fields : list string) :
  hd_error rest <> Some dquote ->
  csv_loop (quote_field field ++ rest)
    {| csv_fields := fields; csv_current := []; csv_inQuotes := false |}
  = csv_loop rest
      {| csv_fields := fields; csv_current := field; csv_inQuotes := false |}.
Proof.
  intros Hrest. unfold quote_field.
  rewrite <- app_comm_cons, <- app_assoc. simpl app.
  pose proof (csv_loop_in_quotes field rest fields [] Hrest) as Hq.
  change ([] ++ field) with field in Hq. rewrite <- Hq. clear Hq.
  set (body := replace_char dquote [dquote; dquote] field ++ dquote :: rest).
  assert (Hb : exists d body', body = d :: body').
  { subst body. destruct (replace_char _ _ field); simpl; eauto. }
  destruct Hb as (d & body' & Hb). rewrite Hb.
  cbn [csv_loop]. change (Ascii.eqb dquote dquote) with true. cbv iota.
  cbn [csv_inQuotes andb negb csv_fields csv_current]. done.
Qed.

Lemma csv_loop_quoted_line (fs : list (list ascii)) :
  forall f fields,
    let st := csv_loop (quoted_line (f :: fs))
                {| csv_fields := fields; csv_current := [];
                   csv_inQuotes := false |} in
    push_field (csv_current st) (csv_fields st)
    = fields ++ map trimmed (f :: fs).
Proof.
  induction fs as [|g fs IH]; intros f fields.
  - cbn [quoted_line]. rewrite <- (app_nil_r (quote_field f)).
    rewrite csv_loop_quoted_field by done. reflexivity.
  - cbn [quoted_line]. cbv zeta.
    change (match fs with
            | [] => quote_field g
            | _ :: _ => quote_field g ++ comma :: quoted_line fs
            end) with (quoted_line (g :: fs)).
    rewrite csv_loop_quoted_field
      by (simpl; vm_compute; intros [=]).
    cbn [csv_loop]. change (Ascii.eqb comma dquote) with false. cbv iota.
    rewrite Ascii.eqb_refl. cbn [csv_inQuotes negb andb csv_fields csv_current].
    specialize (IH g (push_field f fields)). cbv zeta in IH. rewrite IH.
    unfold push_field. rewrite <- app_assoc. reflexivity.
Qed.

(** X18. [parseCSVLine] reads back a line written by a CSV writer: for
    fields each put between double quotes, with the quotes inside
    doubled, and joined by commas, it returns the fields, trimmed;
    commas and quotes inside a field come back unharmed. *)
Theorem X18_parseCSVLine_quoted (fields : list (list ascii))
    (Hfields : fields <> []) :
  parseCSVLine (string_of_list_ascii (quoted_line fields))
  = map trimmed fields.
Proof.
  destruct fields as [|f fs]; [done|].
  unfold parseCSVLine, chars.
  rewrite list_ascii_of_string_of_list_ascii.
  apply (csv_loop_quoted_line fs f []).
Qed.

Lemma X18_parseCSVLine_quoted_witness :
  parseCSVLine
    (string_of_list_ascii
       (quoted_line [chars "NK-1"; chars "KIM, Jong Un";
                     dquote :: chars "Rocket Man" ++ [dquote]; []]))
  = ["NK-1"%string; "KIM, Jong Un"%string;
     string_of_list_ascii (dquote :: chars "Rocket Man" ++ [dquote]);
     ""%string].
Proof.
  rewrite (X18_parseCSVLine_quoted
             [chars "NK-1"; chars "KIM, Jong Un";
              dquote :: chars "Rocket Man" ++ [dquote]; []])
    by discriminate.
  reflexivity.
Defined.

(** ** Trimming *)

Lemma trim_strip (l : list ascii) : trim l = strip_end (drop_spaces l).
Proof. reflexivity. Qed.

Lemma strip_end_head (c : ascii) (l : list ascii) :
  is_space c = false -> strip_end (c :: l) = c :: strip_end l.
Proof.
  intros H. rewrite strip_end_cons, H. by destruct (strip_end l).
Qed.

Lemma strip_end_idem (l : list ascii) : strip_end (strip_end l) = strip_end l.
Proof.
  induction l as [|c l IH]; [done|].
  rewrite strip_end_cons. destruct (strip_end l) as [|d r] eqn:E.
  - destruct (is_space c) eqn:Hc; [done|].
    rewrite strip_end_cons. change (strip_end []) with (@nil ascii). by rewrite Hc.
  - rewrite strip_end_cons, IH. done.
Qed.

Lemma drop_spaces_fixed (l : list ascii) :
  drop_spaces (strip_end (drop_spaces l)) = strip_end (drop_spaces l).
Proof.
  induction l as [|c l IH]; [done|]. simpl.
  destruct (is_space c) eqn:Hc; [done|].
  rewrite strip_end_head by done. simpl. by rewrite Hc.
Qed.

Lemma trim_idem (l : list ascii) : trim (trim l) = trim l.
Proof. rewrite !trim_strip, drop_spaces_fixed. apply strip_end_idem. Qed.

Lemma strip_end_snoc (l : list ascii) (d : ascii) :
  is_space d = false -> strip_end (l ++ [d]) = l ++ [d].
Proof.
  intros H. unfold strip_end. rewrite rev_app_distr. simpl. rewrite H.
  simpl. by rewrite rev_involutive.
Qed.

(** A text that neither starts nor ends with white space is its own
    trimming. *)
Lemma trim_edges (c d : ascii) (l l' : list ascii) :
  is_space c = false -> is_space d = false -> c :: l = l' ++ [d] ->
  trim (c :: l) = c :: l.
Proof.
  intros Hc Hd E. rewrite trim_strip. simpl. rewrite Hc, E.
  by apply strip_end_snoc.
Qed.

Lemma text_chars (l : list ascii) : chars (text l) = l.
Proof. apply list_ascii_of_string_of_list_ascii. Qed.

Lemma csv_loop_trimmed (n : nat) :
  forall line st,
    length line <= n ->
    Forall (fun f => trim (chars f) = chars f) (csv_fields st) ->
    Forall (fun f => trim (chars f) = chars f) (csv_fields (csv_loop line st)).
Proof.
  induction n as [|n IH]; intros [|c rest] st Hlen Hst; simpl in *;
    try done; try lia.
  assert (Hpush : forall cur,
             Forall (fun f => trim (chars f) = chars f)
               (push_field cur (csv_fields st))).
  { intros cur. unfold push_field. apply Forall_app_2; [done|].
    constructor; [|done]. rewrite text_chars. apply trim_idem. }
  destruct (Ascii.eqb c dquote).
  - destruct rest as [|d rest']; [done|].
    destruct (csv_inQuotes st && Ascii.eqb d dquote);
      apply IH; simpl in *; try done; lia.
  - destruct (Ascii.eqb c comma && negb (csv_inQuotes st));
      apply IH; simpl; try done; try lia.
Qed.

(** X19. Every field that [parseCSVLine] returns is trimmed, inside
    quotes or not: trimming it again changes nothing.  There is always
    at least one field. *)
Theorem X19_parseCSVLine_fields_trimmed (line : string) :
  Forall (fun f => trim (chars f) = chars f) (parseCSVLine line)
  /\ 1 <= length (parseCSVLine line).
Proof.
  unfold parseCSVLine, push_field. split.
  - apply Forall_app_2.
    + by apply (csv_loop_trimmed (length (chars line))).
    + constructor; [|done]. rewrite text_chars. apply trim_idem.
  - rewrite length_app. simpl. lia.
Qed.

(** ** Names *)

Lemma split_char_absent (sep : ascii) (l : list ascii) :
  ~ In sep l -> forall current, split_char sep current l = [current ++ l].
Proof.
  induction l as [|c l IH]; intros H current; simpl.
  - by rewrite app_nil_r.
  - destruct (Ascii.eqb_spec c sep) as [->|_]; [exfalso; apply H; by left|].
    rewrite IH by (intros Hl; apply H; by right). by rewrite <- app_assoc.
Qed.

Lemma split_char_at (sep : ascii) (l r : list ascii) :
  ~ In sep l -> forall current,
    split_char sep current (l ++ sep :: r)
    = (current ++ l) :: split_char sep [] r.
Proof.
  induction l as [|c l IH]; intros H current; simpl.
  - by rewrite Ascii.eqb_refl, app_nil_r.
  - destruct (Ascii.eqb_spec c sep) as [->|_]; [exfalso; apply H; by left|].
    rewrite IH by (intros Hl; apply H; by right). by rewrite <- app_assoc.
Qed.

Lemma split_spaces_word (w : list ascii) :
  Forall (fun c => is_space c = false) w -> w <> [] ->
  forall current b rest,
    split_spaces current b (w ++ rest)
    = split_spaces (current ++ w) false rest.
Proof.
  induction 1 as [|c w Hc Hw IH]; intros Hne current b rest; [done|].
  simpl. rewrite Hc. destruct w as [|d w'].
  - done.
  - rewrite IH by done. by rewrite <- app_assoc.
Qed.

Lemma split_spaces_join (ws : list (list ascii)) :
  ws <> [] -> Forall is_word ws ->
  forall b, split_spaces [] b (join_with [space] ws) = ws.
Proof.
  induction ws as [|w ws IH]; intros Hne Hws b; [done|].
  inversion Hws as [|? ? [Hw1 Hw2] Hrest]; subst.
  destruct ws as [|w2 ws'].
  - simpl. rewrite <- (app_nil_r w) at 1.
    by rewrite split_spaces_word.
  - change (join_with [space] (w :: w2 :: ws'))
      with (w ++ space :: join_with [space] (w2 :: ws')).
    rewrite split_spaces_word by done. simpl.
    by rewrite IH.
Qed.

Lemma join_words_head (ws : list (list ascii)) :
  ws <> [] -> Forall is_word ws ->
  exists c l, join_with [space] ws = c :: l /\ is_space c = false.
Proof.
  intros Hne Hws. destruct ws as [|w ws]; [done|].
  inversion Hws as [|? ? [Hw1 Hw2] _]; subst.
  destruct w as [|c w']; [done|]. inversion Hw2; subst.
  destruct ws; simpl; eauto.
Qed.

Lemma join_words_last (ws : list (list ascii)) :
  ws <> [] -> Forall is_word ws ->
  exists l d, join_with [space] ws = l ++ [d] /\ is_space d = false.
Proof.
  induction ws as [|w ws IH]; intros Hne Hws; [done|].
  inversion Hws as [|? ? [Hw1 Hw2] Hrest]; subst.
  destruct ws as [|w2 ws'].
  - simpl. destruct (exists_last Hw1) as (l & d & ->).
    exists l, d. split; [done|].
    rewrite Forall_app in Hw2. destruct Hw2 as [_ Hd]. by inversion Hd.
  - destruct (IH ltac:(done) Hrest) as (l & d & E & Hd).
    change (join_with [space] (w :: w2 :: ws'))
      with (w ++ space :: join_with [space] (w2 :: ws')).
    rewrite E. exists (w ++ space :: l), d. split; [|done].
    by rewrite <- app_assoc.
Qed.

Lemma join_words_trim (ws : list (list ascii)) :
  ws <> [] -> Forall is_word ws ->
  trim (join_with [space] ws) = join_with [space] ws.
Proof.
  intros Hne Hws.
  destruct (join_words_head ws Hne Hws) as (c & l & E & Hc).
  destruct (join_words_last ws Hne Hws) as (l' & d & E' & Hd).
  rewrite E. apply (trim_edges c d l l'); [done|done|congruence].
Qed.

Lemma join_words_no_comma (ws : list (list ascii)) :
  Forall (fun w => ~ In comma w) ws -> ~ In comma (join_with [space] ws).
Proof.
  induction 1 as [|w ws Hw Hws IH]; [by intros []|].
  destruct ws as [|w2 ws']; [done|].
  change (join_with [space] (w :: w2 :: ws'))
    with (w ++ space :: join_with [space] (w2 :: ws')).
  rewrite in_app_iff. intros [H|[H|H]]; [done|discriminate H|done].
Qed.

Lemma text_nonempty (c : ascii) (l : list ascii) : nonempty (text (c :: l)) = true.
Proof. done. Qed.

(** X20. A name without a comma, made of words separated by single
    spaces: [parseName] gives the last word as the last name; when there
    is more than one word, the first word as the first name and the words
    in between, joined by spaces, as the middle name; no word is lost. *)
Theorem X20_parseName_words (ws : list (list ascii))
    (Hne : ws <> []) (Hwords : Forall is_word ws)
    (Hcomma : Forall (fun w => ~ In comma w) ws) :
  parseName (text (join_with [space] ws))
  = {| pn_firstName :=
         if Nat.eqb (length ws) 1 then EmptyString else text (hd [] ws);
       pn_middleName := text (join_with [space] (removelast (tl ws)));
       pn_lastName := text (List.last ws []) |}.
Proof.
  destruct (join_words_head ws Hne Hwords) as (c & l & E & _).
  assert (Hn : nonempty (text (join_with [space] ws)) = true)
    by (by rewrite E).
  unfold parseName. rewrite text_chars, Hn. simpl negb. cbv iota.
  rewrite (split_char_absent comma) by (by apply join_words_no_comma).
  change (Nat.ltb 1 (length [[] ++ join_with [space] ws])) with false.
  cbv iota. rewrite split_spaces_join by done.
  destruct ws as [|a [|b [|c' ws']]]; try done.
Qed.

Lemma X20_parseName_words_witness :
  parseName "Osama bin Mohammed Laden"
  = {| pn_firstName := "Osama"; pn_middleName := "bin Mohammed";
       pn_lastName := "Laden" |}.
Proof.
  apply (X20_parseName_words
           [chars "Osama"; chars "bin"; chars "Mohammed"; chars "Laden"]).
  - discriminate.
  - repeat constructor; discriminate.
  - repeat constructor; vm_compute; intuition discriminate.
Defined.

(** X21. A name in the form "LAST, First Middle": [parseName] gives what
    stands before the comma as the last name, the first word after it as
    the first name, and the remaining words, joined by spaces, as the
    middle name. *)
Theorem X21_parseName_comma_form (ls gs : list (list ascii))
    (Hls : ls <> []) (Hgs : gs <> [])
    (Hlw : Forall is_word ls) (Hgw : Forall is_word gs)
    (Hlc : Forall (fun w => ~ In comma w) ls)
    (Hgc : Forall (fun w => ~ In comma w) gs) :
  parseName
    (text (join_with [space] ls ++ comma :: space :: join_with [space] gs))
  = {| pn_firstName := text (hd [] gs);
       pn_middleName := text (join_with [space] (tl gs));
       pn_lastName := text (join_with [space] ls) |}.
Proof.
  destruct (join_words_head ls Hls Hlw) as (c & l & E & _).
  assert (Hn : nonempty (text (join_with [space] ls
                                ++ comma :: space :: join_with [space] gs))
               = true) by (by rewrite E).
  unfold parseName. rewrite text_chars, Hn. simpl negb. cbv iota.
  rewrite (split_char_at comma) by (by apply join_words_no_comma).
  rewrite (split_char_absent comma).
  2:{ intros [H|H]; [discriminate H|]. by apply (join_words_no_comma gs). }
  cbn [app length Nat.ltb Nat.leb hd tl join_with].
  rewrite (join_words_trim ls) by done.
  assert (Ht : trim (space :: join_with [space] gs) = join_with [space] gs).
  { rewrite trim_strip. simpl.
    rewrite <- trim_strip. by apply join_words_trim. }
  rewrite Ht. rewrite split_spaces_join by done.
  destruct gs as [|a [|b gs']]; try done.
Qed.

Lemma X21_parseName_comma_form_witness :
  parseName "AL ZAWAHIRI, Ayman Muhammad Rabi"
  = {| pn_firstName := "Ayman"; pn_middleName := "Muhammad Rabi";
       pn_lastName := "AL ZAWAHIRI" |}.
Proof.
  apply (X21_parseName_comma_form
           [chars "AL"; chars "ZAWAHIRI"]
           [chars "Ayman"; chars "Muhammad"; chars "Rabi"]);
    try discriminate;
    repeat constructor; try discriminate; vm_compute; intuition discriminate.
Defined.

(** ** The watch-list file *)

Lemma parse_entry_lines_length (lines : list (list ascii)) :
  length (parse_entry_lines lines) <= length lines.
Proof.
  induction lines as [|raw lines IH]; simpl; [done|].
  destruct (parse_entry_line raw); simpl; lia.
Qed.

(** X22. [parseSDNCSV] never reads the first line: two files that differ
    in their first line only give the same entries, a file of a single
    line gives none, and there are never more entries than line breaks. *)
Theorem X22_parseSDNCSV_skips_header (header1 header2 body : list ascii)
    (H1 : ~ In newline header1) (H2 : ~ In newline header2) :
  parseSDNCSV (text (header1 ++ newline :: body))
  = parseSDNCSV (text (header2 ++ newline :: body))
  /\ parseSDNCSV (text header1) = []
  /\ length (parseSDNCSV (text (header1 ++ newline :: body)))
     <= length (List.filter (fun c => Ascii.eqb c newline)
                  (header1 ++ newline :: body)).
Proof.
  unfold parseSDNCSV. rewrite !text_chars.
  rewrite (split_char_at newline header1 body H1 []).
  rewrite (split_char_at newline header2 body H2 []).
  rewrite (split_char_absent newline header1 H1 []).
  split; [done|]. split; [done|].
  cbn [tl]. etransitivity; [apply parse_entry_lines_length|].
  assert (Hs : forall l cur,
             length (split_char newline cur l)
             = S (length (List.filter (fun c => Ascii.eqb c newline) l))).
  { induction l as [|c l IH]; intros cur; [done|].
    cbn [split_char List.filter].
    destruct (Ascii.eqb c newline); cbn [length]; by rewrite IH. }
  rewrite List.filter_app. cbn [List.filter]. rewrite Ascii.eqb_refl.
  rewrite length_app. cbn [length]. rewrite (Hs body []). lia.
Qed.

Lemma X22_parseSDNCSV_skips_header_witness :
  parseSDNCSV
    (text (chars "id,schema,name" ++ newline :: chars "Q1,Person,Jo Doe"))
  = parseSDNCSV
      (text (chars "Q0,Person,Al Roe" ++ newline :: chars "Q1,Person,Jo Doe"))
  /\ length (parseSDNCSV
               (text (chars "id,schema,name" ++ newline
                      :: chars "Q1,Person,Jo Doe"))) = 1.
Proof.
  split; [|reflexivity].
  apply (X22_parseSDNCSV_skips_header (chars "id,schema,name")
           (chars "Q0,Person,Al Roe") (chars "Q1,Person,Jo Doe"));
    vm_compute; intuition discriminate.
Defined.

Lemma parse_entry_lines_In (lines : list (list ascii)) (pe : ParsedEntry) :
  In pe (parse_entry_lines lines) ->
  exists raw, In raw lines /\ parse_entry_line raw = Some pe.
Proof.
  induction lines as [|raw lines IH]; simpl; [done|].
  destruct (parse_entry_line raw) as [e|] eqn:E.
  - intros [<-|H]; [eauto|]. destruct (IH H) as (r & ? & ?). eauto.
  - intros H. destruct (IH H) as (r & ? & ?). eauto.
Qed.

Lemma parsed_entry_shape (raw : list ascii) (pe : ParsedEntry) :
  parse_entry_line raw = Some pe ->
  pe_city pe = EmptyString /\ pe_state pe = EmptyString
  /\ pe_pob pe = EmptyString /\ pe_addresses pe = []
  /\ length (pe_ids pe) <= 1
  /\ pe_country pe = pe_nationality pe.
Proof.
  unfold parse_entry_line.
  destruct (negb (nonempty (text (trim raw)))); [discriminate|].
  destruct (Nat.ltb _ 3); [discriminate|].
  intros [= <-]. cbn. repeat split; try done.
  destruct (nonempty _); simpl; lia.
Qed.

(** Without the city and the state of the candidate, the address score
    comes from the country and the street alone. *)
Lemma address_score_two_parts (a b : Address) :
  truthy (city b) = false -> truthy (state b) = false ->
  (0 <= calculateAddressSimilarity a b <= 55)%Z.
Proof.
  intros Hc Hs. unfold calculateAddressSimilarity.
  set (a0 := (0%Q, 0)).
  set (a1 := address_part 40 _ _ a0).
  assert (0 <= fst a1 <= 0 + 40)%Q as B1
    by (apply address_part_bound; simpl; lra).
  assert (E2 : address_part 20 (state a) (state b) a1 = a1)
    by (unfold address_part; by rewrite Hs, andb_false_r).
  rewrite E2.
  assert (E3 : address_part 25 (city a) (city b) a1 = a1)
    by (unfold address_part; by rewrite Hc, andb_false_r).
  rewrite E3.
  set (a4 := address_part 15 _ _ a1).
  assert (0 <= fst a4 <= 0 + 40 + 15)%Q as B4
    by (apply address_part_bound; [lra|done]).
  destruct (Nat.ltb 0 (snd a4)); [|lia].
  apply Math_round_range; [change (inject_Z 0) with 0%Q
                          | change (inject_Z 55) with 55%Q]; lra.
Qed.

(** X23. Every entry that [parseSDNCSV] builds has an empty city, state
    and place of birth and at most one identifier.  So against such an
    entry the address score is at most 55 and the overall score at most
    93, whatever the query: no entry read from the file can score 100. *)
Theorem X23_parsed_entries_cap (csvText : string) (pe : ParsedEntry)
    (Hpe : In pe (parseSDNCSV csvText)) :
  pe_city pe = EmptyString /\ pe_state pe = EmptyString
  /\ pe_pob pe = EmptyString /\ length (pe_ids pe) <= 1
  /\ forall (newDate : string -> option LocalDate) (q : SearchParams),
       let r := calculateMatchScore newDate q (sdn_entry_of pe) in
       (addressScore r <= 55)%Z /\ (score r <= 93)%Z.
Proof.
  apply parse_entry_lines_In in Hpe as (raw & _ & Hraw).
  destruct (parsed_entry_shape raw pe Hraw) as (Hc & Hs & Hp & _ & Hi & _).
  split; [done|]. split; [done|]. split; [done|]. split; [done|].
  intros newDate q r.
  assert (Ha : (addressScore r <= 55)%Z).
  { subst r. unfold calculateMatchScore; simpl.
    destruct (_ || _); [|lia].
    apply address_score_two_parts; simpl; by rewrite ?Hc, ?Hs. }
  split; [done|].
  pose proof (overall_score_int newDate q (sdn_entry_of pe)) as Hsc.
  pose proof (score_parts_range newDate q (sdn_entry_of pe)) as [Hn _].
  cbv zeta in Hsc, Hn. fold r in Hsc, Hn. rewrite Hsc.
  set (k := (12 * nameScore r + 3 * addressScore r
             + (if dobMatch r then 400 else 0)
             + (if idMatch r then 100 else 0) + 10)%Z).
  assert (k / 20 < 94)%Z; [|lia].
  apply Z.div_lt_upper_bound; [lia|]. subst k.
  destruct (dobMatch r), (idMatch r); lia.
Qed.

Lemma X23_parsed_entries_cap_witness :
  In sample_parsed (parseSDNCSV sample_csv)
  /\ (score (calculateMatchScore (referenceDate 0) sample_full_query
               (sdn_entry_of sample_parsed)) <= 93)%Z.
Proof.
  assert (Hin : In sample_parsed (parseSDNCSV sample_csv))
    by (vm_compute; left; reflexivity).
  split; [exact Hin|].
  exact (proj2 (proj2 (proj2 (proj2 (proj2
           (X23_parsed_entries_cap sample_csv sample_parsed Hin))))
           (referenceDate 0) sample_full_query)).
Defined.
